(** * A shallow embedding of darkest_dungeon_2_scummer (src/main.rs)

    The program finds the Darkest Dungeon II save profile directory and
    copies it into a timestamped folder under a backup root.  The file
    system is modelled as a finite map from paths (lists of path
    segments, the root being [[]]) to nodes; every operation of the
    program is a function over an explicit state. *)

From Stdlib Require Import Strings.String Strings.Ascii ZArith Lia.
From stdpp Require Import base list gmap sets strings.

(* ------------------------------------------------------------------ *)
(** ** Data model *)

(** A path segment is the raw OS string of a component, one [ascii] per
    byte (on Windows, the WTF-8 bytes of the name). *)
Abbreviation path := (list string).

(** A file system node: a directory or a regular file with its bytes. *)
Inductive node :=
| DirN
| FileN (contents : list Byte.byte).

Definition is_dir (x : node) : bool :=
  match x with DirN => true | FileN _ => false end.

(** The file system: the nodes, and the directory entries whose reading
    fails (an I/O error reported by the directory iterator). *)
Record FS := mkFS {
  nodes : gmap (list string) node;
  faults : gset (list string)
}.

Inductive ErrorKind :=
| NotFound
| AlreadyExists
| NotADirectory
| IsADirectory
| InvalidInput
| OtherError.

(** [std::io::Error] *)
Record io_error := IoError { io_kind : ErrorKind; io_msg : string }.

(** [anyhow::Error]: the root error and its context messages, innermost
    first. *)
Record anyhow_error := Anyhow {
  err_source : io_error;
  err_context : list string
}.

Definition anyhow_new (e : io_error) : anyhow_error := Anyhow e [].

(** [anyhow::Context::context] *)
Definition with_context (e : anyhow_error) (c : string) : anyhow_error :=
  Anyhow (err_source e) (err_context e ++ [c]).

(** The outcome of a computation: a value, an error value, or a panic
    (an [expect] or [assert!] that fails). *)
Inductive outcome (A : Type) :=
| Ok (a : A)
| Err (e : anyhow_error)
| Panic (msg : string).
Arguments Ok {A} a.
Arguments Err {A} e.
Arguments Panic {A} msg.

(** A state and error monad over a state [S]. *)
Definition M (S A : Type) : Type := S -> outcome A * S.

Definition ret {S A} (a : A) : M S A := fun s => (Ok a, s).

Definition bind {S A B} (m : M S A) (k : A -> M S B) : M S B :=
  fun s =>
    match m s with
    | (Ok a, s') => k a s'
    | (Err e, s') => (Err e, s')
    | (Panic msg, s') => (Panic msg, s')
    end.

Notation "'let?' x ':=' m 'in' k" := (bind m (fun x => k))
  (at level 200, x name, m at level 100, k at level 200).

Definition throw {S A} (e : anyhow_error) : M S A := fun s => (Err e, s).

Definition panic {S A} (msg : string) : M S A := fun s => (Panic msg, s).

(** [result.context(c)] *)
Definition context {S A} (c : string) (m : M S A) : M S A :=
  fun s =>
    match m s with
    | (Err e, s') => (Err (with_context e c), s')
    | r => r
    end.

(** Lifting an [io::Result] into [anyhow::Result] (the [?] operator). *)
Definition io {S A} (r : io_error + A) : M S A :=
  fun s =>
    match r with
    | inl e => (Err (anyhow_new e), s)
    | inr a => (Ok a, s)
    end.

(** A fallible file system operation that updates the file system. *)
Definition io_fs (f : FS -> io_error + FS) : M FS unit :=
  fun fs =>
    match f fs with
    | inl e => (Err (anyhow_new e), fs)
    | inr fs' => (Ok tt, fs')
    end.

(** [for x in xs { body(x)?; }] *)
Fixpoint for_each {S A} (xs : list A) (body : A -> M S unit) : M S unit :=
  match xs with
  | [] => ret tt
  | x :: xs' => let? _ := body x in for_each xs' body
  end.

(* ------------------------------------------------------------------ *)
(** ** Paths and their strings *)

(** UTF-8 validity of a byte string ([str::from_utf8]). *)
Definition cont_byte (b : nat) : bool := (128 <=? b)%nat && (b <=? 191)%nat.

Definition in_range (lo hi b : nat) : bool := (lo <=? b)%nat && (b <=? hi)%nat.

Fixpoint utf8_ok (l : list nat) : bool :=
  match l with
  | [] => true
  | b0 :: r0 =>
    if (b0 <? 128)%nat then utf8_ok r0 else
    match r0 with
    | [] => false
    | b1 :: r1 =>
      if in_range 194 223 b0 then cont_byte b1 && utf8_ok r1 else
      match r1 with
      | [] => false
      | b2 :: r2 =>
        if (b0 =? 224)%nat then in_range 160 191 b1 && cont_byte b2 && utf8_ok r2
        else if in_range 225 236 b0 || in_range 238 239 b0
          then cont_byte b1 && cont_byte b2 && utf8_ok r2
        else if (b0 =? 237)%nat then in_range 128 159 b1 && cont_byte b2 && utf8_ok r2
        else
        match r2 with
        | [] => false
        | b3 :: r3 =>
          if (b0 =? 240)%nat then
            in_range 144 191 b1 && cont_byte b2 && cont_byte b3 && utf8_ok r3
          else if in_range 241 243 b0 then
            cont_byte b1 && cont_byte b2 && cont_byte b3 && utf8_ok r3
          else if (b0 =? 244)%nat then
            in_range 128 143 b1 && cont_byte b2 && cont_byte b3 && utf8_ok r3
          else false
        end
      end
    end
  end.

Definition bytes_of (s : string) : list nat := map nat_of_ascii (list_ascii_of_string s).

Definition valid_utf8 (s : string) : bool := utf8_ok (bytes_of s).

Definition sep : string := "/".

(** The display string of a path: its segments joined by the separator. *)
Fixpoint join_path (p : list string) : string :=
  match p with
  | [] => ""
  | [x] => x
  | x :: p' => (x ++ sep ++ join_path p')%string
  end.

(** [Path::to_str] *)
Definition to_str (p : list string) : option string :=
  if forallb valid_utf8 p then Some (join_path p) else None.

Definition dquote : string := String (ascii_of_nat 34) EmptyString.

(** [format!("{:?}", path)] on a path whose bytes are all printable ASCII
    other than the two quotes and the backslash (see [debug_plain]): such
    a path is written between double quotes as it is. *)
Definition path_debug (p : list string) : string :=
  (dquote ++ join_path p ++ dquote)%string.

(** The bytes that [char::escape_debug] leaves as they are: printable
    ASCII except the double quote, the single quote and the backslash. *)
Definition debug_plain_char (c : ascii) : bool :=
  let n := nat_of_ascii c in
  (32 <=? n) && (n <=? 126) && negb (n =? 34) && negb (n =? 39) && negb (n =? 92).

(** The paths on which [path_debug] is the [Debug] form of Rust. *)
Definition debug_plain (p : list string) : bool :=
  forallb (fun seg => forallb debug_plain_char (list_ascii_of_string seg)) p.

(* ------------------------------------------------------------------ *)
(** ** File system primitives (std::fs) *)

Definition not_found : io_error := IoError NotFound "No such file or directory (os error 2)".

(** [Path::exists]: the metadata of the path can be read. *)
Definition path_exists (fs : FS) (p : path) : bool :=
  match nodes fs !! p with Some _ => true | None => false end.

(** [Path::is_dir] *)
Definition path_is_dir (fs : FS) (p : path) : bool :=
  match nodes fs !! p with Some DirN => true | _ => false end.

Definition set_nodes (fs : FS) (m : gmap (list string) node) : FS :=
  mkFS m (faults fs).

(** [fs::create_dir] (one [mkdir] system call). *)
Definition mkdir (p : path) (fs : FS) : io_error + FS :=
  match nodes fs !! p with
  | Some _ => inl (IoError AlreadyExists "File exists")
  | None =>
    match nodes fs !! removelast p with
    | Some DirN => inr (set_nodes fs (<[p := DirN]> (nodes fs)))
    | Some (FileN _) => inl (IoError NotADirectory "Not a directory")
    | None => inl not_found
    end
  end.

Definition is_not_found (e : io_error) : bool :=
  match io_kind e with NotFound => true | _ => false end.

(** [fs::create_dir_all], following the standard library's
    [DirBuilder::create_dir_all]: try [mkdir]; when the parent is missing,
    create the parent first and retry; an error on a path that is already
    a directory is not an error.  The path is given reversed, so that its
    parent is the tail. *)
Fixpoint create_dir_all_rev (rp : list string) (fs : FS) : io_error + FS :=
  match rp with
  | [] => inr fs
  | _ :: rparent =>
    let p := rev rp in
    match mkdir p fs with
    | inr fs' => inr fs'
    | inl e =>
      if is_not_found e then
        match create_dir_all_rev rparent fs with
        | inl e' => inl e'
        | inr fs1 =>
          match mkdir p fs1 with
          | inr fs2 => inr fs2
          | inl e2 => if path_is_dir fs1 p then inr fs1 else inl e2
          end
        end
      else if path_is_dir fs p then inr fs else inl e
    end
  end.

Definition create_dir_all (p : path) (fs : FS) : io_error + FS :=
  create_dir_all_rev (rev p) fs.

(** The name of [k] when [k] is a direct child of [p]. *)
Definition child_name (p k : path) : option string :=
  match rev k with
  | n :: rk => if decide (rev rk = p) then Some n else None
  | [] => None
  end.

(** A directory entry as the iterator yields it: its name and whether it
    is a directory ([DirEntry::file_type().is_dir()]), or the I/O error
    of reading it. *)
Definition dir_entry : Type := io_error + (string * bool).

Definition entry_of (fs : FS) (p : path) (kx : path * node) : option dir_entry :=
  match child_name p kx.1 with
  | Some n =>
    Some (if decide (kx.1 ∈ faults fs)
          then inl (IoError OtherError "failed to read directory entry")
          else inr (n, is_dir kx.2))
  | None => None
  end.

(** [fs::read_dir]: the entries of a directory, in the order of the
    file system's enumeration (here the map's order).  The iterator is
    read as a snapshot at the time of the call. *)
Definition read_dir (p : path) (fs : FS) : io_error + list dir_entry :=
  match nodes fs !! p with
  | Some DirN => inr (omap (entry_of fs p) (map_to_list (nodes fs)))
  | Some (FileN _) => inl (IoError NotADirectory "Not a directory")
  | None => inl not_found
  end.

(** [fs::copy]: the source must be a regular file, the target's parent
    a directory and the target not a directory; the target is created or
    truncated and receives the source's bytes (none when it is the source
    itself, which the truncation has emptied). *)
Definition copy_file (from to : path) (fs : FS) : io_error + FS :=
  match nodes fs !! from with
  | None => inl not_found
  | Some DirN => inl (IoError InvalidInput "the source path is not a regular file")
  | Some (FileN b) =>
    match nodes fs !! removelast to with
    | Some DirN =>
      match nodes fs !! to with
      | Some DirN => inl (IoError IsADirectory "Is a directory")
      | _ => inr (set_nodes fs (<[to := FileN (if decide (from = to) then [] else b)]> (nodes fs)))
      end
    | Some (FileN _) => inl (IoError NotADirectory "Not a directory")
    | None => inl not_found
    end
  end.

(* ------------------------------------------------------------------ *)
(** ** copy_dir_recursively *)

Definition copy_msg (from to : path) : string :=
  ("Failed trying to copy from " ++ path_debug from ++ " to " ++ path_debug to)%string.

(** The body of the loop of [copy_dir_recursively]: [entry?], then a
    recursive copy ([recur]) for a directory, [fs::copy] for anything else. *)
Definition copy_entry (recur : path -> path -> M FS unit) (src dst : path)
    (entry : dir_entry) : M FS unit :=
  let? e := io entry in
  let '(name, ty_is_dir) := e in
  if ty_is_dir then
    context (copy_msg (src ++ [name]) (dst ++ [name]))
      (recur (src ++ [name]) (dst ++ [name]))
  else
    context (copy_msg (src ++ [name]) (dst ++ [name]))
      (io_fs (copy_file (src ++ [name]) (dst ++ [name]))).

(** [copy_dir_recursively(src, dst)].  The Rust function recurses without
    bound; [fuel] bounds the recursion depth, and running out of it is an
    error (the stack overflow of the Rust program). *)
Fixpoint copy_dir_recursively (fuel : nat) (src dst : path) : M FS unit :=
  match fuel with
  | 0 => throw (anyhow_new (IoError OtherError "recursion depth exhausted"))
  | S fuel' =>
    let? _ := context ("failed to create dst dir: " ++ path_debug dst)%string
                (io_fs (create_dir_all dst)) in
    let? entries := context ("failed to read src dir: " ++ path_debug src)%string
                (fun fs => io (read_dir src fs) fs) in
    for_each entries (copy_entry (copy_dir_recursively fuel') src dst)
  end.

(** The depth bound used by the program: deeper than any directory of a
    file system holding no more than [map_size] nodes. *)
Definition copy_fuel (fs : FS) : nat := S (map_size (nodes fs)).

(* ------------------------------------------------------------------ *)
(** ** Time and its formatting (chrono) *)

(** [DateTime<Utc>]: seconds since the Unix epoch and nanoseconds within
    the second. *)
Record instant := Instant { secs : Z; nsec : Z }.

(** Decimal digits of a non-negative integer. *)
Fixpoint dec_aux (fuel : nat) (z : Z) (acc : string) : string :=
  match fuel with
  | 0 => acc
  | S fuel' =>
    let acc' := String (ascii_of_nat (48 + Z.to_nat (z mod 10))) acc in
    if (z <? 10)%Z then acc' else dec_aux fuel' (z / 10)%Z acc'
  end.

Definition dec (z : Z) : string :=
  match z with
  | Zpos p => dec_aux (Pos.to_nat (Pos.size p)) z ""
  | _ => "0"
  end.

(** [{:0n}]: the decimal digits left-padded with zeros to width [n]. *)
Definition pad (n : nat) (z : Z) : string :=
  let s := dec z in
  (String.concat "" (repeat "0" (n - String.length s)) ++ s)%string.

(** Days since 1970-01-01 to a proleptic Gregorian (year, month, day). *)
Definition civil_from_days (days : Z) : Z * Z * Z :=
  let z := (days + 719468)%Z in
  let era := (z / 146097)%Z in
  let doe := (z - era * 146097)%Z in
  let yoe := ((doe - doe / 1460 + doe / 36524 - doe / 146096) / 365)%Z in
  let doy := (doe - (365 * yoe + yoe / 4 - yoe / 100))%Z in
  let mp := ((5 * doy + 2) / 153)%Z in
  let d := (doy - (153 * mp + 2) / 5 + 1)%Z in
  let m := if (mp <? 10)%Z then (mp + 3)%Z else (mp - 9)%Z in
  let y := (yoe + era * 400 + (if (m <=? 2)%Z then 1 else 0))%Z in
  (y, m, d).

Definition year_of (t : instant) : Z := (civil_from_days (secs t / 86400)).1.1.
Definition month_of (t : instant) : Z := (civil_from_days (secs t / 86400)).1.2.
Definition day_of (t : instant) : Z := (civil_from_days (secs t / 86400)).2.
Definition hour_of (t : instant) : Z := (secs t mod 86400 / 3600)%Z.
Definition minute_of (t : instant) : Z := (secs t mod 3600 / 60)%Z.
Definition second_of (t : instant) : Z := (secs t mod 60)%Z.

(** [%Y]: four zero-padded digits for years 0..9999, otherwise signed. *)
Definition fmt_year (y : Z) : string :=
  if ((0 <=? y) && (y <=? 9999))%Z then pad 4 y
  else ((if (y <? 0)%Z then "-" else "+") ++ pad 4 (Z.abs y))%string.

(** chrono's [DateTime::format(fmt).to_string()] for the specifiers the
    program uses: [%Y %m %d %H %M %S %f %%]; any other character is
    copied.  An unknown specifier makes [to_string] panic ([None]). *)
Fixpoint strftime (f : list ascii) (t : instant) : option string :=
  match f with
  | [] => Some ""
  | "%"%char :: c :: f' =>
    let item :=
      match c with
      | "Y"%char => Some (fmt_year (year_of t))
      | "m"%char => Some (pad 2 (month_of t))
      | "d"%char => Some (pad 2 (day_of t))
      | "H"%char => Some (pad 2 (hour_of t))
      | "M"%char => Some (pad 2 (minute_of t))
      | "S"%char => Some (pad 2 (second_of t))
      | "f"%char => Some (pad 9 (nsec t mod 1000000000))
      | "%"%char => Some "%"
      | _ => None
      end in
    match item, strftime f' t with
    | Some s, Some r => Some (s ++ r)%string
    | _, _ => None
    end
  | c :: f' =>
    match strftime f' t with
    | Some r => Some (String c r)
    | None => None
    end
  end.

Definition format (t : instant) (fmt : string) : option string :=
  strftime (list_ascii_of_string fmt) t.

(* ------------------------------------------------------------------ *)
(** ** The world the program runs in *)

Record world := mkWorld {
  w_fs : FS;
  username : string;          (** [whoami::username()] *)
  clock : nat -> instant;     (** the successive readings of [SystemTime::now()] *)
  ticks : nat;
  stdout : list string
}.

Definition set_fs (w : world) (fs : FS) : world :=
  mkWorld fs (username w) (clock w) (ticks w) (stdout w).

Definition lift_fs {A} (m : M FS A) : M world A :=
  fun w => let '(r, fs') := m (w_fs w) in (r, set_fs w fs').

Definition gets {A} (f : world -> A) : M world A := fun w => (Ok (f w), w).

(** The last year of chrono's [NaiveDate] range. *)
Definition MAX_YEAR : Z := 262142.

(** [chrono::Utc::now()]: [SystemTime::now().duration_since(UNIX_EPOCH)
    .expect("system time before Unix epoch")], then
    [DateTime::from_timestamp(secs, nsecs).unwrap()], which fails past
    the end of chrono's range. *)
Definition utc_now : M world instant :=
  fun w =>
    let t := clock w (ticks w) in
    let w' := mkWorld (w_fs w) (username w) (clock w) (S (ticks w)) (stdout w) in
    if (secs t <? 0)%Z then (Panic "system time before Unix epoch", w')
    else if (MAX_YEAR <? year_of t)%Z then
      (Panic "called `Option::unwrap()` on a `None` value", w')
    else (Ok t, w').

(** [println!] *)
Definition println (s : string) : M world unit :=
  fun w => (Ok tt, mkWorld (w_fs w) (username w) (clock w) (ticks w) (stdout w ++ [s])).

(** Turning an error into a value, as a [match] on a [Result] does. *)
Definition attempt {S A} (m : M S A) : M S (anyhow_error + A) :=
  fun s =>
    match m s with
    | (Ok a, s') => (Ok (inr a), s')
    | (Err e, s') => (Ok (inl e), s')
    | (Panic msg, s') => (Panic msg, s')
    end.

(** [format!("{e}")] of an [anyhow::Error]: its outermost message. *)
Definition display (e : anyhow_error) : string :=
  match rev (err_context e) with
  | c :: _ => c
  | [] => io_msg (err_source e)
  end.

(* ------------------------------------------------------------------ *)
(** ** The program (src/main.rs) *)

(** The app-data path: ["C:/Users/{username}/AppData/LocalLow/RedHook/Darkest Dungeon II"]. *)
Definition app_data_path (user : string) : path :=
  ["C:"; "Users"; user; "AppData"; "LocalLow"; "RedHook"; "Darkest Dungeon II"].

(** [find_darkest_dungeon_2_app_data_dir] *)
Definition find_darkest_dungeon_2_app_data_dir : M world path :=
  let? user := gets username in
  let expected_path := app_data_path user in
  let? ex := gets (fun w => path_exists (w_fs w) expected_path) in
  if negb ex then
    throw (anyhow_new (IoError NotFound "Darkest Dungeon 2 app dir not found"))
  else ret expected_path.

Definition SCUMM_DIR_NAME : string := "scummed".

(** [ensure_scumm_dir] *)
Definition ensure_scumm_dir : M world path :=
  let? dd2_app_dir := context "Failed to create scumm dir" find_darkest_dungeon_2_app_data_dir in
  let scumm_dir := dd2_app_dir ++ [SCUMM_DIR_NAME] in
  let? ex := gets (fun w => path_exists (w_fs w) scumm_dir) in
  if ex then ret scumm_dir
  else
    let? _ := context "Failed to create scumm dir" (lift_fs (io_fs (mkdir scumm_dir))) in
    ret scumm_dir.

(** [find_save_dir] *)
Definition find_save_dir : M world path :=
  let? app_dir := context "Failed to find save dir" find_darkest_dungeon_2_app_data_dir in
  let save_dir := app_dir ++ ["SaveFiles"] in
  let? ex := gets (fun w => path_exists (w_fs w) save_dir) in
  if negb ex then
    throw (anyhow_new (IoError NotFound "Darkest Dungeon 2 save dir not found in app dir"))
  else ret save_dir.

(** The loop of [find_user_id_dirs]: [sub_dirs.push(dir.path())] for each
    entry, returning at the first entry that cannot be read. *)
Fixpoint push_sub_dirs (save_dir : path) (es : list dir_entry) (sub_dirs : list path)
    : M world (list path) :=
  match es with
  | [] => ret sub_dirs
  | inl e :: _ =>
    throw (with_context (anyhow_new e) "Failed to read sub dir while looking for user id dir")
  | inr (name, _) :: es' => push_sub_dirs save_dir es' (sub_dirs ++ [save_dir ++ [name]])
  end.

(** [find_user_id_dirs] *)
Definition find_user_id_dirs : M world (list path) :=
  let? save_dir := context "Failed to find user id dirs" find_save_dir in
  let? rd := gets (fun w => read_dir save_dir (w_fs w)) in
  match rd with
  | inl e => throw (with_context (anyhow_new e) "Failed to read_dir while looking for user id dirs")
  | inr es => push_sub_dirs save_dir es []
  end.

(** The loop of [find_profiles_dirs]. *)
Fixpoint push_profiles_dirs (user_id_dirs : list path) (profile_dirs : list path)
    : M world (list path) :=
  match user_id_dirs with
  | [] => ret profile_dirs
  | user_id_dir :: rest =>
    let profiles_dir := user_id_dir ++ ["profiles"] in
    let? ex := gets (fun w => path_exists (w_fs w) profiles_dir) in
    if ex then push_profiles_dirs rest (profile_dirs ++ [profiles_dir])
    else
      match to_str profiles_dir with
      | None => panic "dir path should be a valid string"
      | Some s => throw (anyhow_new (IoError NotFound ("Profiles dir not found at " ++ s)))
      end
  end.

(** [find_profiles_dirs] *)
Definition find_profiles_dirs : M world (list path) :=
  let? user_id_dirs := context "Failed to find user id dirs while looking for profile dirs"
                         find_user_id_dirs in
  push_profiles_dirs user_id_dirs [].

(** [struct ScummedProfile] *)
Record ScummedProfile := {
  source_path : path;
  dest_path : path;
  time_scummed : instant
}.

Definition DEST_FORMAT : string := "%Y-%m-%dT%H-%M-%S.%f".

(** [ScummedProfile::scumm_profile] *)
Definition scumm_profile (profile_dir scumm_dir : path) : M world ScummedProfile :=
  let? ex := gets (fun w => path_exists (w_fs w) profile_dir) in
  if negb ex then
    match to_str profile_dir with
    | None => panic "dir path should be a valid string"
    | Some s => throw (anyhow_new (IoError NotFound ("Profiles dir not found at " ++ s)))
    end
  else
    let? now := utc_now in
    match format now DEST_FORMAT with
    | None => panic "a Display implementation returned an error unexpectedly"
    | Some stamp =>
      let dest_path := scumm_dir ++ [stamp] in
      let? _ := lift_fs (fun fs => copy_dir_recursively (copy_fuel fs) profile_dir dest_path fs) in
      let? t := utc_now in
      ret {| source_path := profile_dir; dest_path := dest_path; time_scummed := t |}
    end.

(** [main] *)
Definition main : M world unit :=
  let? profile_dirs := attempt find_profiles_dirs in
  match profile_dirs with
  | inl e => println ("Failed to find profile dirs: " ++ display e)
  | inr dirs =>
    if (List.length dirs =? 0)%nat then
      panic "if finding find_profiles_dirs didn't return err should have at least 1 dir"
    else if (1 <? List.length dirs)%nat then
      println ("Found " ++ dec (Z.of_nat (List.length dirs))
               ++ " profile dirs, but currently only support 1 dir")
    else
      match dirs with
      | [] => panic "swap_remove index out of bounds"
      | profile_dir :: _ =>
        let? r := attempt ensure_scumm_dir in
        match r with
        | inl e => println ("failed to ensure scumm dir: " ++ display e)
        | inr scumm_dir =>
          let? s := attempt (scumm_profile profile_dir scumm_dir) in
          match s with
          | inl e => println ("failed to scumm profile: " ++ display e)
          | inr scummed =>
            println ("successfully scummed current profile from "
                     ++ path_debug (source_path scummed) ++ " to "
                     ++ path_debug (dest_path scummed))
          end
        end
      end
  end%string.

(* ------------------------------------------------------------------ *)
(** ** Derived notions used by the proofs *)

(** A clock reading [Utc::now()] turns into an instant without
    panicking: not before the Unix epoch, not past chrono's range. *)
Definition clock_ok (t : instant) : bool :=
  ((0 <=? secs t) && (year_of t <=? MAX_YEAR))%Z.

(** The names of the entries of a listing that could be read. *)
Definition entry_names (es : list dir_entry) : list string :=
  omap (fun e : dir_entry => match e with inr (n, _) => Some n | inl _ => None end) es.

(** [m'] differs from [m] at most on paths that were absent in [m] and are
    prefixes of [d] (the ancestors [create_dir_all d] creates). *)
Definition creates_only (d : path) (m m' : gmap path node) : Prop :=
  forall q, is_Some (m !! q) \/ ~ q `prefix_of` d -> m' !! q = m !! q.

(** [m'] differs from [m] at most under [d] and on absent prefixes of [d]. *)
Definition frame (d : path) (m m' : gmap path node) : Prop :=
  forall q, ~ d `prefix_of` q -> is_Some (m !! q) \/ ~ q `prefix_of` d -> m' !! q = m !! q.

(** Below [b], every node's parent is a directory. *)
Definition subtree_closed (fs : FS) (b : path) : Prop :=
  forall r n x, nodes fs !! (b ++ r ++ [n]) = Some x -> nodes fs !! (b ++ r) = Some DirN.

(** A well-formed file system: the parent of every node is a directory. *)
Definition fs_wf (fs : FS) : Prop :=
  forall p n x, nodes fs !! (p ++ [n]) = Some x -> nodes fs !! p = Some DirN.

Definition dir_at (m : gmap path node) (q : path) : bool :=
  match m !! q with Some DirN => true | _ => false end.

(** A decision procedure for [fs_wf]. *)
Definition fs_wfb (fs : FS) : bool :=
  forallb (fun kx : path * node => bool_decide (kx.1 = []) || dir_at (nodes fs) (removelast kx.1))
    (map_to_list (nodes fs)).

(** A sample profile: a directory holding [save1.dat] (bytes
    [0xAB 0xCD]) and [meta/info.json] (text [{"v":1}]). *)
Definition info_json : list Byte.byte :=
  [Byte.x7b; Byte.x22; Byte.x76; Byte.x22; Byte.x3a; Byte.x31; Byte.x7d].

Definition ex_src : path := ["profiles"].
Definition ex_dst : path := ["scummed"; "stamp"].

Definition ex_fs : FS :=
  mkFS (list_to_map [([], DirN); (["profiles"], DirN);
                     (["profiles"; "save1.dat"], FileN [Byte.xab; Byte.xcd]);
                     (["profiles"; "meta"], DirN);
                     (["profiles"; "meta"; "info.json"], FileN info_json);
                     (["scummed"], DirN)]) ∅.

Definition ex_fs_copied : FS := snd (copy_dir_recursively 4 ex_src ex_dst ex_fs).

(** The save root, [<app dir>/SaveFiles]. *)
Definition save_root (w : world) : path := app_data_path (username w) ++ ["SaveFiles"].

(** What [now.format(DEST_FORMAT).to_string()] renders: the fraction is
    chrono's [%f], nanoseconds on nine digits. *)
Definition stamp_frac (t : instant) : string := pad 9 (nsec t mod 1000000000).

Definition stamp_of (t : instant) : string :=
  (fmt_year (year_of t) ++ "-" ++ pad 2 (month_of t) ++ "-" ++ pad 2 (day_of t) ++ "T"
   ++ pad 2 (hour_of t) ++ "-" ++ pad 2 (minute_of t) ++ "-" ++ pad 2 (second_of t)
   ++ "." ++ stamp_frac t)%string.

(** The destination name as the specification words it,
    [YYYY-MM-DDTHH-MM-SS.ffffff]: microseconds on six digits. *)
Definition spec_stamp_micro (t : instant) : string :=
  (fmt_year (year_of t) ++ "-" ++ pad 2 (month_of t) ++ "-" ++ pad 2 (day_of t) ++ "T"
   ++ pad 2 (hour_of t) ++ "-" ++ pad 2 (minute_of t) ++ "-" ++ pad 2 (second_of t)
   ++ "." ++ pad 6 ((nsec t mod 1000000000) / 1000))%string.

(** Example worlds: user [player], the app-data directory and its
    ancestors, an empty save root, plus [extra] nodes and [bad] faults. *)
Definition ex_user : string := "player".

Definition ex_app : path := app_data_path ex_user.

Definition ex_save : path := ex_app ++ ["SaveFiles"].

Definition ex_base_nodes : list (path * node) :=
  [([], DirN); (take 1 ex_app, DirN); (take 2 ex_app, DirN); (take 3 ex_app, DirN);
   (take 4 ex_app, DirN); (take 5 ex_app, DirN); (take 6 ex_app, DirN);
   (ex_app, DirN); (ex_save, DirN)].

(** 2023-11-14T22:13:20.1234567 UTC. *)
Definition ex_t : instant := Instant 1700000000 123456700.

Definition ex_world (extra : list (path * node)) (bad : gset path) : world :=
  mkWorld (mkFS (list_to_map (ex_base_nodes ++ extra)) bad) ex_user (fun _ => ex_t) 0 [].

(** An identity directory with its [profiles] directory and a save file. *)
Definition ex_identity (id : string) : list (path * node) :=
  [(ex_save ++ [id], DirN); (ex_save ++ [id; "profiles"], DirN);
   (ex_save ++ [id; "profiles"; "save1.dat"], FileN [Byte.xab; Byte.xcd])].

Definition ex_steam_id : string := "76561198000000000".

(** A name that is not valid UTF-8 (a lone continuation byte), and one
    that is ("é"). *)
Definition non_utf8_name : string := String (ascii_of_nat 128) EmptyString.

Definition e_acute : string := String (ascii_of_nat 195) (String (ascii_of_nat 169) EmptyString).

Definition ex_w_noapp : world :=
  mkWorld (mkFS (list_to_map [([], DirN)]) ∅) ex_user (fun _ => ex_t) 0 [].

Definition ex_w_empty : world := ex_world [] ∅.

Definition ex_w_one : world := ex_world (ex_identity ex_steam_id) ∅.

Definition ex_w_two : world := ex_world (ex_identity "a" ++ ex_identity "b") ∅.

Definition ex_w_faulted : world := ex_world (ex_identity ex_steam_id) {[ ex_save ++ [ex_steam_id] ]}.

Definition ex_w_scummed : world := ex_world [(ex_app ++ ["scummed"], DirN)] ∅.

Definition ex_w_missing : world := ex_world [(ex_save ++ ["0"], DirN)] ∅.

Definition ex_w_bad : world := ex_world [(ex_save ++ [non_utf8_name], DirN)] ∅.

Definition ex_w_mixed : world :=
  ex_world [(ex_save ++ [e_acute], DirN); (ex_save ++ [non_utf8_name], DirN)] ∅.

(** One identity directory, and a regular file at [<app>/scummed]. *)
Definition ex_w_file : world :=
  ex_world (ex_identity ex_steam_id ++ [(ex_app ++ ["scummed"], FileN [])]) ∅.

(* ================================================================== *)
(** * Proofs *)

(* ------------------------------------------------------------------ *)
(** ** Paths *)

Section Prefixes.
Context {A : Type}.
Implicit Types (k l q : list A) (x y : A).

Lemma prefix_snoc_inv l k x : l `prefix_of` k ++ [x] -> l `prefix_of` k \/ l = k ++ [x].
Proof.
  intros [t Ht]. destruct t as [|y t] using rev_ind.
  - right. by rewrite app_nil_r in Ht.
  - left. rewrite app_assoc in Ht. apply app_inj_tail in Ht as [-> _]. by exists t.
Qed.

Lemma prefix_snoc_cancel k l x : k ++ [x] `prefix_of` l ++ [x] -> k `prefix_of` l.
Proof.
  intros Hp. apply prefix_snoc_inv in Hp as [Hp|Heq].
  - by eapply prefix_app_l.
  - apply app_inj_tail in Heq as [-> _]. done.
Qed.

Lemma not_prefix_longer k x r : ~ (k ++ x :: r) `prefix_of` k.
Proof.
  intros Hp%prefix_length. rewrite length_app in Hp. simpl in Hp. lia.
Qed.

Lemma sibling_not_prefix k x y r : x <> y -> ~ (k ++ [x]) `prefix_of` (k ++ y :: r).
Proof.
  intros Hne Hp. apply prefix_app_inv in Hp. apply prefix_cons_inv_1 in Hp. congruence.
Qed.

Lemma sibling_not_prefix' k x y r : x <> y -> ~ (k ++ y :: r) `prefix_of` (k ++ [x]).
Proof.
  intros Hne Hp. apply prefix_app_inv in Hp. apply prefix_cons_inv_1 in Hp. congruence.
Qed.

End Prefixes.

Lemma child_name_spec (p k : path) (n : string) : child_name p k = Some n <-> k = p ++ [n].
Proof.
  unfold child_name. split.
  - destruct (rev k) as [|m rk] eqn:Hk; [done|].
    case_decide as Hd; [|done]. intros [= ->].
    rewrite <- (rev_involutive k), Hk. simpl. by rewrite Hd.
  - intros ->. rewrite rev_app_distr. simpl. rewrite rev_involutive.
    by rewrite decide_True.
Qed.

(* ------------------------------------------------------------------ *)
(** ** Directory listings *)

Lemma entry_names_cons_inr n b es : entry_names (inr (n, b) :: es) = n :: entry_names es.
Proof. reflexivity. Qed.

Lemma elem_of_entry_names n es : n ∈ entry_names es <-> exists b, inr (n, b) ∈ es.
Proof.
  unfold entry_names. rewrite list_elem_of_omap. split.
  - intros [[e|[m b]] [Hin Heq]]; [done|]. injection Heq as ->. eauto.
  - intros [b Hin]. exists (inr (n, b)). done.
Qed.

Lemma entry_of_inr fs p kx n b :
  entry_of fs p kx = Some (inr (n, b)) -> kx.1 = p ++ [n] /\ is_dir kx.2 = b /\ kx.1 ∉ faults fs.
Proof.
  unfold entry_of. destruct (child_name p kx.1) as [m|] eqn:Hc; [|done].
  case_decide; [done|]. intros [= -> ->]. apply child_name_spec in Hc. done.
Qed.

Lemma NoDup_entry_names fs p (l : list (path * node)) :
  NoDup l.*1 -> NoDup (entry_names (omap (entry_of fs p) l)).
Proof.
  induction l as [|[k x] l IH]; simpl; [constructor|].
  intros [Hk Hl]%NoDup_cons. destruct (entry_of fs p (k, x)) as [[e|[n b]]|] eqn:He;
    [by apply IH|simpl|by apply IH].
  constructor; [|by apply IH].
  apply entry_of_inr in He as (Hkn & _ & _); simpl in Hkn; subst k.
  intros [b' Hin]%elem_of_entry_names. apply list_elem_of_omap in Hin as [[k' x'] [Hin He']].
  apply entry_of_inr in He' as (Hk' & _ & _); simpl in Hk'; subst k'.
  apply Hk. apply list_elem_of_fmap. exists (p ++ [n], x'). done.
Qed.

Lemma read_dir_dir p fs es : read_dir p fs = inr es -> nodes fs !! p = Some DirN.
Proof. unfold read_dir. by destruct (nodes fs !! p) as [[|]|]. Qed.

Lemma read_dir_nodup p fs es : read_dir p fs = inr es -> NoDup (entry_names es).
Proof.
  unfold read_dir. destruct (nodes fs !! p) as [[|]|]; intros; simplify_eq.
  apply NoDup_entry_names, NoDup_fst_map_to_list.
Qed.

Lemma read_dir_inr p fs es n b :
  read_dir p fs = inr es -> inr (n, b) ∈ es ->
  exists x, nodes fs !! (p ++ [n]) = Some x /\ is_dir x = b.
Proof.
  unfold read_dir. destruct (nodes fs !! p) as [[|]|]; intros; simplify_eq.
  match goal with H : _ ∈ omap _ _ |- _ => apply list_elem_of_omap in H as [[k x] [Hin He]] end.
  apply entry_of_inr in He as (Hk & Hb & _); simpl in *; subst.
  apply elem_of_map_to_list in Hin. eauto.
Qed.

Lemma read_dir_complete p fs es n x :
  read_dir p fs = inr es -> nodes fs !! (p ++ [n]) = Some x ->
  inr (n, is_dir x) ∈ es \/ exists e, inl e ∈ es.
Proof.
  unfold read_dir. destruct (nodes fs !! p) as [[|]|]; intros Hr Hx; simplify_eq.
  assert (Hin : (p ++ [n], x) ∈ map_to_list (nodes fs)) by by apply elem_of_map_to_list.
  destruct (decide ((p ++ [n]) ∈ faults fs)) as [Hf|Hf].
  - right. eexists. apply list_elem_of_omap. exists (p ++ [n], x). split; [done|].
    unfold entry_of. simpl. rewrite (proj2 (child_name_spec p _ n) eq_refl).
    by rewrite decide_True.
  - left. apply list_elem_of_omap. exists (p ++ [n], x). split; [done|].
    unfold entry_of. simpl. rewrite (proj2 (child_name_spec p _ n) eq_refl).
    by rewrite decide_False.
Qed.

Lemma read_dir_faulted p fs es n x :
  read_dir p fs = inr es -> nodes fs !! (p ++ [n]) = Some x -> (p ++ [n]) ∈ faults fs ->
  exists e, inl e ∈ es.
Proof.
  unfold read_dir. destruct (nodes fs !! p) as [[|]|]; intros Hr Hx Hf; simplify_eq.
  eexists. apply list_elem_of_omap. exists (p ++ [n], x). split.
  - by apply elem_of_map_to_list.
  - unfold entry_of. simpl. rewrite (proj2 (child_name_spec p _ n) eq_refl).
    by rewrite decide_True.
Qed.

(* ------------------------------------------------------------------ *)
(** ** What each operation may change *)

Lemma creates_only_refl d m : creates_only d m m.
Proof. by intros q _. Qed.

Lemma creates_only_trans d m1 m2 m3 :
  creates_only d m1 m2 -> creates_only d m2 m3 -> creates_only d m1 m3.
Proof.
  intros H12 H23 q Hq. rewrite H23; [by apply H12|].
  destruct Hq as [Hs|Hn]; [left; rewrite H12; [done|by left]|by right].
Qed.

Lemma creates_only_snoc d x m m' : creates_only d m m' -> creates_only (d ++ [x]) m m'.
Proof.
  intros H q [Hs|Hn]; apply H; [by left|right]. intros Hp. apply Hn. by apply prefix_app_r.
Qed.

Lemma creates_only_frame d m m' : creates_only d m m' -> frame d m m'.
Proof. intros H q _ Hq. by apply H. Qed.

Lemma frame_refl d m : frame d m m.
Proof. by intros q _ _. Qed.

Lemma frame_trans d m1 m2 m3 : frame d m1 m2 -> frame d m2 m3 -> frame d m1 m3.
Proof.
  intros H12 H23 q Hd Hq. rewrite H23; [by apply H12|done|].
  destruct Hq as [Hs|Hn]; [left; rewrite H12; [done|done|by left]|by right].
Qed.

Lemma frame_snoc d x m m' : frame (d ++ [x]) m m' -> frame d m m'.
Proof.
  intros H q Hd Hq. apply H.
  - intros Hp. apply Hd. by eapply prefix_app_l.
  - destruct Hq as [Hs|Hn]; [by left|right].
    intros [Hp| ->]%prefix_snoc_inv; [done|]. apply Hd. by exists [x].
Qed.

Lemma mkdir_spec p fs fs' :
  mkdir p fs = inr fs' ->
  nodes fs !! p = None /\ nodes fs !! removelast p = Some DirN /\
  nodes fs' = <[p := DirN]> (nodes fs) /\ faults fs' = faults fs.
Proof.
  unfold mkdir. destruct (nodes fs !! p) eqn:Hp; [done|].
  destruct (nodes fs !! removelast p) as [[|]|] eqn:Hr; intros; simplify_eq; done.
Qed.

Lemma mkdir_creates_only p fs fs' :
  mkdir p fs = inr fs' -> creates_only p (nodes fs) (nodes fs') /\ faults fs' = faults fs.
Proof.
  intros (Hp & _ & -> & Hf)%mkdir_spec. split; [|done].
  intros q Hq. destruct (decide (q = p)) as [->|Hne].
  - rewrite Hp in Hq. destruct Hq as [[? ?]|Hn]; [done|]. by destruct Hn.
  - by rewrite lookup_insert_ne.
Qed.

Lemma create_dir_all_rev_creates_only rp fs fs' :
  create_dir_all_rev rp fs = inr fs' ->
  creates_only (rev rp) (nodes fs) (nodes fs') /\ faults fs' = faults fs.
Proof.
  revert fs fs'. induction rp as [|x rp IH]; intros fs fs' H; simpl in H.
  - injection H as <-. split; [apply creates_only_refl|done].
  - destruct (mkdir (rev rp ++ [x]) fs) as [e|fs1] eqn:Hm.
    + destruct (is_not_found e).
      * destruct (create_dir_all_rev rp fs) as [e'|fs1] eqn:Hc; [done|].
        destruct (IH _ _ Hc) as [Hc1 Hf1].
        destruct (mkdir (rev rp ++ [x]) fs1) as [e2|fs2] eqn:Hm2.
        -- destruct (path_is_dir fs1 (rev rp ++ [x])); [|done]. injection H as <-.
           simpl. split; [by apply creates_only_snoc|done].
        -- injection H as <-. apply mkdir_creates_only in Hm2 as [Hc2 Hf2].
           simpl. split; [|congruence].
           eapply creates_only_trans; [by apply creates_only_snoc|done].
      * destruct (path_is_dir fs (rev rp ++ [x])); [|done]. injection H as <-.
        split; [apply creates_only_refl|done].
    + injection H as <-. by apply mkdir_creates_only.
Qed.

Lemma create_dir_all_rev_dir x rp fs fs' :
  create_dir_all_rev (x :: rp) fs = inr fs' -> nodes fs' !! rev (x :: rp) = Some DirN.
Proof.
  simpl. unfold path_is_dir.
  destruct (mkdir (rev rp ++ [x]) fs) as [e|fs1] eqn:Hm.
  - destruct (is_not_found e).
    + destruct (create_dir_all_rev rp fs) as [e'|fs1]; [done|].
      destruct (mkdir (rev rp ++ [x]) fs1) as [e2|fs2] eqn:Hm2.
      * destruct (nodes fs1 !! (rev rp ++ [x])) as [[|]|] eqn:Hd; intros; simplify_eq; done.
      * intros [= <-]. apply mkdir_spec in Hm2 as (_ & _ & -> & _).
        by rewrite lookup_insert_eq.
    + destruct (nodes fs !! (rev rp ++ [x])) as [[|]|] eqn:Hd; intros; simplify_eq; done.
  - intros [= <-]. apply mkdir_spec in Hm as (_ & _ & -> & _). by rewrite lookup_insert_eq.
Qed.

Lemma snoc_ne (src dst : path) n : ~ src `prefix_of` dst -> src ++ [n] <> dst ++ [n].
Proof. intros Hns Heq. apply app_inv_tail in Heq. subst. by apply Hns. Qed.

Lemma copy_file_spec from to fs fs' :
  from <> to ->
  copy_file from to fs = inr fs' ->
  exists b, nodes fs !! from = Some (FileN b) /\
    nodes fs' = <[to := FileN b]> (nodes fs) /\ faults fs' = faults fs.
Proof.
  intros Hne. unfold copy_file. destruct (nodes fs !! from) as [[|b]|]; [done| |done].
  destruct (nodes fs !! removelast to) as [[|]|]; [|done|done].
  destruct (nodes fs !! to) as [[|]|]; intros; simplify_eq;
    rewrite ?decide_False by done; eauto.
Qed.

Lemma copy_file_any from to fs fs' :
  copy_file from to fs = inr fs' ->
  exists b b', nodes fs !! from = Some (FileN b) /\
    nodes fs' = <[to := FileN b']> (nodes fs) /\ faults fs' = faults fs.
Proof.
  unfold copy_file. destruct (nodes fs !! from) as [[|b]|]; [done| |done].
  destruct (nodes fs !! removelast to) as [[|]|]; [|done|done].
  destruct (nodes fs !! to) as [[|]|]; intros; simplify_eq; eauto.
Qed.

(* ------------------------------------------------------------------ *)
(** ** Running the copier *)

Lemma for_each_ok_cons {S A} (x : A) xs (body : A -> M S unit) s s'' :
  for_each (x :: xs) body s = (Ok tt, s'') ->
  exists s', body x s = (Ok tt, s') /\ for_each xs body s' = (Ok tt, s'').
Proof.
  simpl. unfold bind. destruct (body x s) as [[[]| |] s']; intros; simplify_eq; eauto.
Qed.

Lemma io_fs_ok f fs fs' : io_fs f fs = (Ok tt, fs') -> f fs = inr fs'.
Proof. unfold io_fs. destruct (f fs); intros; simplify_eq; done. Qed.

Lemma context_ok {S A} c (m : M S A) s a s' : context c m s = (Ok a, s') -> m s = (Ok a, s').
Proof. unfold context. destruct (m s) as [[| |] ?]; intros; simplify_eq; done. Qed.

Lemma copy_entry_ok recur src dst entry fs fs' :
  copy_entry recur src dst entry fs = (Ok tt, fs') ->
  exists n b, entry = inr (n, b) /\
    (b = true -> recur (src ++ [n]) (dst ++ [n]) fs = (Ok tt, fs')) /\
    (b = false -> copy_file (src ++ [n]) (dst ++ [n]) fs = inr fs').
Proof.
  unfold copy_entry, bind, io. destruct entry as [e|[n b]]; [done|].
  exists n, b. split; [done|]. destruct b; split; intros Hb; try done.
  - by apply context_ok in H.
  - by apply context_ok, io_fs_ok in H.
Qed.

Lemma for_each_copy_no_inl recur src dst es fs fs' e :
  for_each es (copy_entry recur src dst) fs = (Ok tt, fs') -> inl e ∉ es.
Proof.
  revert fs. induction es as [|x es IH]; intros fs H Hin; [by apply not_elem_of_nil in Hin|].
  apply for_each_ok_cons in H as (fs1 & H1 & H2).
  apply elem_of_cons in Hin as [<-|Hin].
  - by apply copy_entry_ok in H1 as (n & b & ? & _).
  - by eapply IH.
Qed.

Lemma copy_dir_recursively_ok fuel src dst fs fs' :
  copy_dir_recursively fuel src dst fs = (Ok tt, fs') ->
  exists fuel' fs1 es, fuel = S fuel' /\ create_dir_all dst fs = inr fs1 /\
    read_dir src fs1 = inr es /\
    for_each es (copy_entry (copy_dir_recursively fuel') src dst) fs1 = (Ok tt, fs').
Proof.
  destruct fuel as [|fuel']; simpl; [done|]. unfold bind, context, io_fs, io.
  destruct (create_dir_all dst fs) as [e|fs1] eqn:Hc; [done|].
  destruct (read_dir src fs1) as [e|es] eqn:Hr; [done|].
  intros H. by exists fuel', fs1, es.
Qed.

(** The loop of the copier only changes the destination tree, when each
    recursive copy only changes its own destination tree. *)
Lemma for_each_copy_entry_frame (recur : path -> path -> M FS unit) src dst :
  (forall s d fs fs', recur s d fs = (Ok tt, fs') ->
     frame d (nodes fs) (nodes fs') /\ faults fs' = faults fs) ->
  forall es fs1 fs',
  for_each es (copy_entry recur src dst) fs1 = (Ok tt, fs') ->
  frame dst (nodes fs1) (nodes fs') /\ faults fs' = faults fs1.
Proof.
  intros Hrec es. induction es as [|e es IHes]; intros fs1 fs' Hl.
  { simpl in Hl. injection Hl as <-. split; [apply frame_refl|done]. }
  apply for_each_ok_cons in Hl as (fs2 & H1 & H2).
  destruct (IHes _ _ H2) as [Hfr2 Hf2].
  apply copy_entry_ok in H1 as (n & b & -> & Hd & Hfile).
  assert (frame dst (nodes fs1) (nodes fs2) /\ faults fs2 = faults fs1) as [Hfr1 Hf1].
  { destruct b.
    - destruct (Hrec _ _ _ _ (Hd eq_refl)) as [Hfr Hf]. split; [|done].
      by eapply frame_snoc.
    - destruct (copy_file_any _ _ _ _ (Hfile eq_refl)) as (c & c' & _ & Hn & Hf).
      split; [|done]. intros q Hq _. rewrite Hn. rewrite lookup_insert_ne; [done|].
      intros <-. apply Hq. by exists [n]. }
  split; [by eapply frame_trans|congruence].
Qed.

(** The copier only changes the destination tree and the missing
    ancestors of the destination. *)
Lemma copy_dir_recursively_frame fuel : forall src dst fs fs',
  copy_dir_recursively fuel src dst fs = (Ok tt, fs') ->
  frame dst (nodes fs) (nodes fs') /\ faults fs' = faults fs.
Proof.
  induction fuel as [|fuel IH]; intros src dst fs fs' H.
  { done. }
  apply copy_dir_recursively_ok in H as (fuel' & fs1 & es & [= <-] & Hc & _ & Hl).
  apply create_dir_all_rev_creates_only in Hc as [Hc Hf].
  rewrite rev_involutive in Hc. apply creates_only_frame in Hc.
  destruct (for_each_copy_entry_frame _ src dst IH es fs1 fs' Hl) as [Hfr Hf'].
  split; [by eapply frame_trans|congruence].
Qed.

(* ------------------------------------------------------------------ *)
(** ** The copier reproduces the source tree *)

Lemma wf_subtree_closed fs b : fs_wf fs -> subtree_closed fs b.
Proof. intros Hwf r n x Hx. rewrite app_assoc in Hx. by eapply Hwf. Qed.

Lemma closed_descendant fs b r t :
  subtree_closed fs b -> t <> [] -> is_Some (nodes fs !! (b ++ r ++ t)) ->
  nodes fs !! (b ++ r) = Some DirN.
Proof.
  intros Hc. induction t as [|m t IH] using rev_ind; [done|]. intros _ [x Hx].
  rewrite (app_assoc r t [m]) in Hx. apply Hc in Hx.
  destruct t as [|m' t']; [by rewrite app_nil_r in Hx|].
  apply IH; [done|]. by eexists.
Qed.

Lemma closed_app fs b r : subtree_closed fs b -> subtree_closed fs (b ++ r).
Proof.
  intros Hc r' n x Hx. rewrite <- app_assoc. apply (Hc (r ++ r') n x).
  rewrite <- app_assoc in Hx. by rewrite <- (app_assoc r r' [n]).
Qed.

Lemma closed_agree fs1 fs2 b :
  (forall r, nodes fs2 !! (b ++ r) = nodes fs1 !! (b ++ r)) ->
  subtree_closed fs1 b -> subtree_closed fs2 b.
Proof.
  intros Hag Hc r n x Hx. rewrite Hag in Hx |- *. by eapply Hc.
Qed.

Lemma copy_dir_recursively_tree fuel : forall src dst fs fs',
  subtree_closed fs src ->
  nodes fs !! src = Some DirN ->
  (forall r, nodes fs !! (dst ++ r) = None) ->
  ~ src `prefix_of` dst ->
  copy_dir_recursively fuel src dst fs = (Ok tt, fs') ->
  forall r, nodes fs' !! (dst ++ r) = nodes fs !! (src ++ r).
Proof.
  induction fuel as [|fuel IH]; intros src dst fs fs' Hcl Hsrc Hfresh Hns H.
  { done. }
  apply copy_dir_recursively_ok in H as (fuel' & fs1 & es & [= <-] & Hc & Hr & Hl).
  (* the source and the destination trees are disjoint *)
  assert (Hsd : forall r, ~ dst `prefix_of` src ++ r).
  { intros r Hp. destruct (prefix_weak_total dst src (src ++ r) Hp (prefix_app_r _ _ _ (reflexivity _)))
      as [[t ->]|Hp2]; [|done]. by rewrite Hfresh in Hsrc. }
  assert (Hds : forall r, ~ (src ++ r) `prefix_of` dst).
  { intros r Hp. apply Hns. by eapply prefix_app_l. }
  assert (Hne : dst <> []).
  { intros ->. specialize (Hfresh src). simpl in Hfresh. congruence. }
  (* after [create_dir_all dst] *)
  unfold create_dir_all in Hc.
  assert (Hdir1 : nodes fs1 !! dst = Some DirN).
  { destruct (rev dst) as [|x rp] eqn:Hrd.
    - apply (f_equal (@rev _)) in Hrd. rewrite rev_involutive in Hrd. done.
    - apply create_dir_all_rev_dir in Hc. by rewrite <- Hrd, rev_involutive in Hc. }
  apply create_dir_all_rev_creates_only in Hc as [Hco _].
  rewrite rev_involutive in Hco.
  assert (Hsrc1 : forall r, nodes fs1 !! (src ++ r) = nodes fs !! (src ++ r)).
  { intros r. apply Hco. right. apply Hds. }
  assert (Hfresh1 : forall n r, nodes fs1 !! (dst ++ n :: r) = None).
  { intros n r. rewrite Hco; [apply Hfresh|]. right. apply not_prefix_longer. }
  (* the listing of the source *)
  assert (Hnd := read_dir_nodup _ _ _ Hr).
  assert (Hnoinl : forall e, inl e ∉ es) by (intros e; by eapply for_each_copy_no_inl).
  assert (Hin : forall n b, inr (n, b) ∈ es ->
            exists x, nodes fs !! (src ++ [n]) = Some x /\ is_dir x = b).
  { intros n b Hnb. destruct (read_dir_inr _ _ _ _ _ Hr Hnb) as (x & Hx & Hb).
    rewrite Hsrc1 in Hx. eauto. }
  assert (Hcomplete : forall n x, nodes fs !! (src ++ [n]) = Some x -> n ∈ entry_names es).
  { intros n x Hx. rewrite <- Hsrc1 in Hx.
    destruct (read_dir_complete _ _ _ _ _ Hr Hx) as [Hi|[e He]].
    - apply elem_of_entry_names. eauto.
    - by destruct (Hnoinl e). }
  (* the loop over the entries *)
  assert (Hloop : forall es0 fsk fse,
     NoDup (entry_names es0) ->
     (forall n b, inr (n, b) ∈ es0 ->
        exists x, nodes fs !! (src ++ [n]) = Some x /\ is_dir x = b) ->
     (forall r, nodes fsk !! (src ++ r) = nodes fs !! (src ++ r)) ->
     nodes fsk !! dst = Some DirN ->
     (forall n r, n ∈ entry_names es0 -> nodes fsk !! (dst ++ n :: r) = None) ->
     for_each es0 (copy_entry (copy_dir_recursively fuel) src dst) fsk = (Ok tt, fse) ->
     nodes fse !! dst = Some DirN /\
     (forall n r, n ∈ entry_names es0 ->
        nodes fse !! (dst ++ n :: r) = nodes fs !! (src ++ n :: r)) /\
     (forall n r, n ∉ entry_names es0 ->
        nodes fse !! (dst ++ n :: r) = nodes fsk !! (dst ++ n :: r))).
  { clear Hnd Hnoinl Hin Hcomplete Hl Hr Hdir1 Hsrc1 Hfresh1 Hco.
    intros es0. induction es0 as [|e es0 IHes]; intros fsk fse Hnd Hin Hsk Hdk Hfk Hfe.
    { simpl in Hfe. injection Hfe as <-. split; [done|]. split.
      - intros n r Hn. by apply not_elem_of_nil in Hn.
      - done. }
    apply for_each_ok_cons in Hfe as (fsk' & Hstep & Hrest).
    apply copy_entry_ok in Hstep as (n & b & -> & Hdrec & Hfile).
    rewrite entry_names_cons_inr in Hnd, Hfk |- *.
    apply NoDup_cons in Hnd as [Hnn Hnd].
    destruct (Hin n b) as (x & Hx & Hb); [by left|].
    (* the effect of the step on [dst ++ [n]] *)
    assert (Hstep : frame (dst ++ [n]) (nodes fsk) (nodes fsk') /\
              forall r, nodes fsk' !! (dst ++ n :: r) = nodes fs !! (src ++ n :: r)).
    { destruct b.
      - specialize (Hdrec eq_refl). destruct x as [|c]; [|done].
        split; [by apply copy_dir_recursively_frame in Hdrec as [? _]|].
        intros r. replace (dst ++ n :: r) with ((dst ++ [n]) ++ r) by by rewrite <- app_assoc.
        eapply IH in Hdrec.
        + rewrite Hdrec, <- app_assoc. apply Hsk.
        + apply closed_app. eapply closed_agree; [apply Hsk|done].
        + by rewrite <- Hx, <- Hsk.
        + intros r'. rewrite <- app_assoc. apply Hfk. by left.
        + intros Hp. apply Hns. by eapply prefix_snoc_cancel.
      - specialize (Hfile eq_refl). destruct x as [|c]; [done|].
        destruct (copy_file_spec _ _ _ _ (snoc_ne _ _ n Hns) Hfile) as (c' & Hc' & Hn' & _).
        rewrite Hsk, Hx in Hc'. injection Hc' as <-. rewrite Hn'. split.
        + intros q Hq _. rewrite lookup_insert_ne; [done|]. intros <-. apply Hq. done.
        + intros [|m r].
          * by rewrite lookup_insert_eq.
          * rewrite lookup_insert_ne.
            2:{ intros Heq. apply app_inv_head in Heq. discriminate. }
            rewrite Hfk; [|by left]. symmetry.
            destruct (nodes fs !! (src ++ n :: m :: r)) eqn:Hd; [|done].
            exfalso. assert (Hdir : nodes fs !! (src ++ [n]) = Some DirN).
            { eapply (closed_descendant _ _ [n] (m :: r)); [done|done|].
              simpl. by eexists. }
            congruence. }
    destruct Hstep as [Hfr Hval].
    assert (Hsk' : forall r, nodes fsk' !! (src ++ r) = nodes fs !! (src ++ r)).
    { intros r. rewrite Hfr; [apply Hsk| |].
      - intros Hp. apply (Hsd r). by eapply prefix_app_l.
      - right. intros [Hp| Hp]%prefix_snoc_inv; [by apply (Hds r)|].
        apply (Hsd r). rewrite Hp. by exists [n]. }
    assert (Hdk' : nodes fsk' !! dst = Some DirN).
    { rewrite Hfr; [done| |by left; eexists].
      apply (not_prefix_longer dst n []). }
    assert (Hsib : forall m r, m <> n -> nodes fsk' !! (dst ++ m :: r) = nodes fsk !! (dst ++ m :: r)).
    { intros m r Hmn. apply Hfr; [by apply sibling_not_prefix|].
      right. by apply sibling_not_prefix'. }
    destruct (IHes fsk' fse Hnd) as (Hd & Hmem & Hnot).
    { intros m b' Hm. apply Hin. by right. }
    { done. }
    { done. }
    { intros m r Hm. rewrite Hsib; [|intros ->; done]. apply Hfk. by right. }
    { done. }
    split; [done|]. split.
    - intros m r [-> | Hm]%elem_of_cons.
      + rewrite Hnot; [apply Hval|done].
      + by apply Hmem.
    - intros m r Hm. rewrite Hnot; [|intros Hm'; apply Hm; by right].
      apply Hsib. intros ->. apply Hm. by left. }
  destruct (Hloop es fs1 fs' Hnd Hin Hsrc1 Hdir1) as (Hd & Hmem & Hnot).
  { intros n r _. apply Hfresh1. }
  { done. }
  intros [|n r].
  - rewrite !app_nil_r. congruence.
  - destruct (decide (n ∈ entry_names es)) as [Hn|Hn]; [by apply Hmem|].
    rewrite Hnot, Hfresh1; [|done]. symmetry.
    destruct (nodes fs !! (src ++ n :: r)) as [x|] eqn:Hx; [|done].
    exfalso. apply Hn.
    destruct r as [|m r].
    + by eapply Hcomplete.
    + apply (Hcomplete n DirN). eapply (closed_descendant _ _ [n] (m :: r)); [done|done|].
      simpl. by eexists.
Qed.

Lemma wf_prefix_dir fs q k :
  fs_wf fs -> nodes fs !! q = Some DirN -> k `prefix_of` q -> nodes fs !! k = Some DirN.
Proof.
  intros Hwf Hq [t ->]. revert Hq. induction t as [|m t IH] using rev_ind.
  - by rewrite app_nil_r.
  - intros Hq. rewrite app_assoc in Hq. apply IH. by eapply Hwf.
Qed.

(** On a well-formed file system, a successful [create_dir_all p] leaves
    [p] and all its ancestors directories. *)
Lemma create_dir_all_rev_prefixes rp : forall fs fs',
  fs_wf fs -> rp <> [] -> create_dir_all_rev rp fs = inr fs' ->
  forall k, k `prefix_of` rev rp -> nodes fs' !! k = Some DirN.
Proof.
  induction rp as [|x rp IH]; intros fs fs' Hwf Hne H k Hk; [done|].
  simpl in H, Hk. unfold path_is_dir in H.
  destruct (mkdir (rev rp ++ [x]) fs) as [e|fs1] eqn:Hm.
  - destruct (is_not_found e) eqn:Hnf.
    + destruct (create_dir_all_rev rp fs) as [e'|fs1] eqn:Hc; [done|].
      assert (Hpar : forall k, k `prefix_of` rev rp -> nodes fs1 !! k = Some DirN).
      { destruct rp as [|y rp'].
        - simpl in Hc. injection Hc as <-. simpl in H, Hm. rewrite Hm in H.
          unfold mkdir in Hm. destruct (nodes fs !! [x]) eqn:Hx.
          + injection Hm as <-. done.
          + done.
        - eapply IH; [done|done|done]. }
      destruct (mkdir (rev rp ++ [x]) fs1) as [e2|fs2] eqn:Hm2.
      * destruct (nodes fs1 !! (rev rp ++ [x])) as [[|]|] eqn:Hd; try done.
        injection H as <-. apply prefix_snoc_inv in Hk as [Hk| ->]; [by apply Hpar|done].
      * injection H as <-. apply mkdir_spec in Hm2 as (_ & _ & -> & _).
        apply prefix_snoc_inv in Hk as [Hk| ->].
        -- rewrite lookup_insert_ne; [by apply Hpar|].
           intros <-. by apply prefix_snoc_not in Hk.
        -- by rewrite lookup_insert_eq.
    + destruct (nodes fs !! (rev rp ++ [x])) as [[|]|] eqn:Hd; try done.
      injection H as <-. by eapply wf_prefix_dir.
  - injection H as <-. apply mkdir_spec in Hm as (_ & Hpar & -> & _).
    rewrite removelast_last in Hpar.
    apply prefix_snoc_inv in Hk as [Hk| ->].
    + rewrite lookup_insert_ne; [by eapply wf_prefix_dir|].
      intros <-. by apply prefix_snoc_not in Hk.
    + by rewrite lookup_insert_eq.
Qed.

Lemma fs_wfb_sound fs : fs_wfb fs = true -> fs_wf fs.
Proof.
  intros H p n x Hx. unfold fs_wfb in H. rewrite forallb_forall in H.
  specialize (H (p ++ [n], x)). simpl in H.
  assert (Hin : In (p ++ [n], x) (map_to_list (nodes fs))).
  { apply list_elem_of_In. by apply elem_of_map_to_list. }
  apply H, orb_true_iff in Hin as [Hnil|Hd].
  - apply bool_decide_eq_true in Hnil. by destruct p.
  - rewrite removelast_last in Hd. unfold dir_at in Hd.
    by destruct (nodes fs !! p) as [[|]|].
Qed.

(** C2: on success, [copy_dir_recursively src dst] has created [dst] and
    all its ancestors as directories, and the tree under [dst] is the
    tree under [src]: every relative path holds the same node (the same
    directory, or a file with the same bytes) under both.  The
    destination is fresh: absent and outside the source. *)
Theorem copy_dir_recursively_isomorphic fuel src dst fs fs' :
  fs_wf fs ->
  nodes fs !! src = Some DirN ->
  nodes fs !! dst = None ->
  ~ src `prefix_of` dst ->
  copy_dir_recursively fuel src dst fs = (Ok tt, fs') ->
  (forall k, k `prefix_of` dst -> nodes fs' !! k = Some DirN) /\
  (forall r, nodes fs' !! (dst ++ r) = nodes fs !! (src ++ r)).
Proof.
  intros Hwf Hsrc Hdst Hns H.
  assert (Hfresh : forall r, nodes fs !! (dst ++ r) = None).
  { intros r. destruct (nodes fs !! (dst ++ r)) eqn:E; [|done].
    destruct r as [|m r]; [rewrite app_nil_r in E; congruence|]. exfalso.
    assert (Hd : nodes fs !! (dst ++ []) = Some DirN).
    { eapply (closed_descendant fs dst [] (m :: r)); [by apply wf_subtree_closed|done|].
      simpl. rewrite E. by eexists. }
    rewrite app_nil_r in Hd. congruence. }
  assert (Hiso := copy_dir_recursively_tree fuel src dst fs fs'
                    (wf_subtree_closed fs src Hwf) Hsrc Hfresh Hns H).
  split; [|done].
  intros k Hk. destruct (decide (k = dst)) as [->|Hkd].
  { specialize (Hiso []). rewrite !app_nil_r in Hiso. congruence. }
  apply copy_dir_recursively_ok in H as (fuel' & fs1 & es & -> & Hc & _ & Hl).
  assert (Hne : dst <> []).
  { intros ->. specialize (Hfresh src). simpl in Hfresh. congruence. }
  unfold create_dir_all in Hc.
  assert (Hk1 : nodes fs1 !! k = Some DirN).
  { eapply create_dir_all_rev_prefixes; [done| |done|by rewrite rev_involutive].
    intros Hr. apply Hne. apply (f_equal (@rev _)) in Hr. by rewrite rev_involutive in Hr. }
  destruct (for_each_copy_entry_frame _ src dst (copy_dir_recursively_frame fuel')
              es fs1 fs' Hl) as [Hfr _].
  rewrite Hfr; [done| |by left; eexists].
  intros Hdk. apply Hkd. apply prefix_length_eq; [done|]. by apply prefix_length.
Qed.

Lemma copy_dir_recursively_isomorphic_witness :
  fs_wf ex_fs /\ nodes ex_fs !! ex_src = Some DirN /\ nodes ex_fs !! ex_dst = None /\
  ~ ex_src `prefix_of` ex_dst /\
  copy_dir_recursively 4 ex_src ex_dst ex_fs = (Ok tt, ex_fs_copied) /\
  nodes ex_fs_copied !! (ex_dst ++ ["meta"; "info.json"]) = Some (FileN info_json).
Proof.
  assert (Hwf : fs_wf ex_fs) by (apply fs_wfb_sound; vm_compute; reflexivity).
  assert (Hsrc : nodes ex_fs !! ex_src = Some DirN) by (vm_compute; reflexivity).
  assert (Hdst : nodes ex_fs !! ex_dst = None) by (vm_compute; reflexivity).
  assert (Hns : ~ ex_src `prefix_of` ex_dst) by (intros [t Ht]; discriminate Ht).
  assert (Hrun : copy_dir_recursively 4 ex_src ex_dst ex_fs = (Ok tt, ex_fs_copied))
    by (vm_compute; reflexivity).
  split; [done|]. split; [done|]. split; [done|]. split; [done|]. split; [done|].
  rewrite (proj2 (copy_dir_recursively_isomorphic 4 ex_src ex_dst ex_fs ex_fs_copied
                    Hwf Hsrc Hdst Hns Hrun) ["meta"; "info.json"]).
  vm_compute. reflexivity.
Defined.

(* ------------------------------------------------------------------ *)
(** ** The locators do not change the world *)

Lemma find_app_dir_eq w :
  find_darkest_dungeon_2_app_data_dir w =
  if path_exists (w_fs w) (app_data_path (username w))
  then (Ok (app_data_path (username w)), w)
  else (Err (anyhow_new (IoError NotFound "Darkest Dungeon 2 app dir not found")), w).
Proof.
  unfold find_darkest_dungeon_2_app_data_dir, bind, gets, ret, throw. simpl.
  by destruct (path_exists (w_fs w) (app_data_path (username w))).
Qed.

Lemma find_save_dir_eq w :
  find_save_dir w =
  if path_exists (w_fs w) (app_data_path (username w)) then
    if path_exists (w_fs w) (save_root w) then (Ok (save_root w), w)
    else (Err (anyhow_new (IoError NotFound "Darkest Dungeon 2 save dir not found in app dir")), w)
  else (Err (with_context (anyhow_new (IoError NotFound "Darkest Dungeon 2 app dir not found"))
               "Failed to find save dir"), w).
Proof.
  unfold find_save_dir, bind, context at 1. rewrite find_app_dir_eq.
  destruct (path_exists (w_fs w) (app_data_path (username w))); [|done].
  unfold gets, ret, throw, save_root. simpl.
  by destruct (path_exists _ _).
Qed.

Lemma push_sub_dirs_ok sd es acc w ids w' :
  push_sub_dirs sd es acc w = (Ok ids, w') ->
  ids = acc ++ ((fun n => sd ++ [n]) <$> entry_names es) /\ (forall e, inl e ∉ es) /\ w' = w.
Proof.
  revert acc. induction es as [|[e|[n b]] es IH]; intros acc H; simpl in H.
  - injection H as <- <-. split; [by rewrite app_nil_r|]. split; [|done].
    intros e He. by apply not_elem_of_nil in He.
  - done.
  - apply IH in H as (-> & Hnl & ->). rewrite entry_names_cons_inr. simpl.
    rewrite <- app_assoc. split; [done|]. split; [|done].
    intros e [He|He]%elem_of_cons; [done|]. by apply (Hnl e).
Qed.

Lemma push_sub_dirs_inl sd es acc w e :
  inl e ∈ es -> exists err, push_sub_dirs sd es acc w = (Err err, w).
Proof.
  revert acc. induction es as [|[e'|[n b]] es IH]; intros acc He.
  - by apply not_elem_of_nil in He.
  - simpl. eauto.
  - apply elem_of_cons in He as [He|He]; [done|]. simpl. by apply IH.
Qed.

Lemma find_user_id_dirs_ok w ids w' :
  find_user_id_dirs w = (Ok ids, w') ->
  exists es, path_exists (w_fs w) (app_data_path (username w)) = true /\
    read_dir (save_root w) (w_fs w) = inr es /\
    ids = (fun n => save_root w ++ [n]) <$> entry_names es /\
    (forall e, inl e ∉ es) /\ w' = w.
Proof.
  unfold find_user_id_dirs, bind, context at 1. rewrite find_save_dir_eq.
  destruct (path_exists (w_fs w) (app_data_path (username w))) eqn:Ha; [|done].
  destruct (path_exists (w_fs w) (save_root w)); [|done].
  unfold gets. simpl. destruct (read_dir (save_root w) (w_fs w)) as [e|es]; [done|].
  intros H. apply push_sub_dirs_ok in H as (-> & Hnl & ->). eauto 6.
Qed.

Lemma find_user_id_dirs_pure w r w' : find_user_id_dirs w = (r, w') -> w' = w.
Proof.
  unfold find_user_id_dirs, bind, context at 1. rewrite find_save_dir_eq.
  destruct (path_exists (w_fs w) (app_data_path (username w))); [|by intros [= _ <-]].
  destruct (path_exists (w_fs w) (save_root w)); [|by intros [= _ <-]].
  unfold gets. simpl. destruct (read_dir (save_root w) (w_fs w)) as [e|es]; [by intros [= _ <-]|].
  generalize (@nil path). induction es as [|[e|[n b]] es IH]; intros acc H; simpl in H.
  - by injection H as _ <-.
  - by injection H as _ <-.
  - by apply IH in H.
Qed.

Lemma push_profiles_dirs_ok ids acc w l w' :
  push_profiles_dirs ids acc w = (Ok l, w') ->
  l = acc ++ ((fun p => p ++ ["profiles"]) <$> ids) /\ w' = w.
Proof.
  revert acc. induction ids as [|id ids IH]; intros acc H; simpl in H.
  - injection H as <- <-. by rewrite app_nil_r.
  - unfold bind, gets in H. simpl in H.
    destruct (path_exists (w_fs w) (id ++ ["profiles"])).
    + apply IH in H as [-> ->]. simpl. by rewrite <- app_assoc.
    + destruct (to_str (id ++ ["profiles"])); done.
Qed.

Lemma push_profiles_dirs_pure ids acc w r w' : push_profiles_dirs ids acc w = (r, w') -> w' = w.
Proof.
  revert acc. induction ids as [|id ids IH]; intros acc H; simpl in H.
  - by injection H as _ <-.
  - unfold bind, gets in H. simpl in H.
    destruct (path_exists (w_fs w) (id ++ ["profiles"])).
    + by apply IH in H.
    + destruct (to_str (id ++ ["profiles"])); by injection H as _ <-.
Qed.

(** The identity directories before the first one lacking [profiles]
    are passed over; that one decides the outcome. *)
Lemma push_profiles_dirs_first_missing pre id post acc w :
  (forall q, q ∈ pre -> path_exists (w_fs w) (q ++ ["profiles"]) = true) ->
  path_exists (w_fs w) (id ++ ["profiles"]) = false ->
  push_profiles_dirs (pre ++ id :: post) acc w =
  match to_str (id ++ ["profiles"]) with
  | None => (Panic "dir path should be a valid string", w)
  | Some s => (Err (anyhow_new (IoError NotFound ("Profiles dir not found at " ++ s))), w)
  end.
Proof.
  intros Hpre Hid. revert acc. induction pre as [|q pre IH]; intros acc; simpl.
  - unfold bind, gets. simpl. rewrite Hid. by destruct (to_str (id ++ ["profiles"])).
  - unfold bind, gets. simpl. rewrite Hpre; [|by left]. apply IH.
    intros q' Hq'. apply Hpre. by right.
Qed.

Lemma find_profiles_dirs_pure w r w' : find_profiles_dirs w = (r, w') -> w' = w.
Proof.
  unfold find_profiles_dirs, bind, context.
  destruct (find_user_id_dirs w) as [[ids| |] w1] eqn:Hf;
    apply find_user_id_dirs_pure in Hf as ->.
  - apply push_profiles_dirs_pure.
  - by intros [= _ <-].
  - by intros [= _ <-].
Qed.

Lemma find_user_id_dirs_eq w :
  path_exists (w_fs w) (app_data_path (username w)) = true ->
  path_exists (w_fs w) (save_root w) = true ->
  find_user_id_dirs w =
  match read_dir (save_root w) (w_fs w) with
  | inl e => (Err (with_context (anyhow_new e) "Failed to read_dir while looking for user id dirs"), w)
  | inr es => push_sub_dirs (save_root w) es [] w
  end.
Proof.
  intros Ha Hs. unfold find_user_id_dirs, bind, context at 1.
  rewrite find_save_dir_eq, Ha, Hs. simpl. unfold gets.
  by destruct (read_dir (save_root w) (w_fs w)).
Qed.

Lemma read_dir_inl p fs es e :
  read_dir p fs = inr es -> inl e ∈ es -> exists n x, nodes fs !! (p ++ [n]) = Some x.
Proof.
  unfold read_dir. destruct (nodes fs !! p) as [[|]|]; intros Hr He; simplify_eq.
  apply list_elem_of_omap in He as [[k x] [Hin He]]. unfold entry_of in He. simpl in He.
  destruct (child_name p k) as [n|] eqn:Hc; [|done].
  apply child_name_spec in Hc as ->. apply elem_of_map_to_list in Hin. eauto.
Qed.

Lemma NoDup_children (sd : path) (l : list string) :
  NoDup l -> NoDup ((fun n => sd ++ [n]) <$> l).
Proof.
  apply NoDup_fmap_2. intros n m Heq. apply app_inv_head in Heq. by injection Heq.
Qed.

(** C6: the identity directories are exactly the immediate children of
    the save root, files and directories alike, each once; an empty save
    root gives an empty list of profile directories; an entry that cannot
    be read fails the whole enumeration. *)
Theorem find_user_id_dirs_children w :
  (forall ids w', find_user_id_dirs w = (Ok ids, w') ->
     w' = w /\ NoDup ids /\
     forall q, q ∈ ids <-> exists n x, q = save_root w ++ [n] /\ nodes (w_fs w) !! q = Some x) /\
  (path_exists (w_fs w) (app_data_path (username w)) = true ->
   nodes (w_fs w) !! save_root w = Some DirN ->
   (forall n, nodes (w_fs w) !! (save_root w ++ [n]) = None) ->
   find_profiles_dirs w = (Ok [], w)) /\
  (path_exists (w_fs w) (app_data_path (username w)) = true ->
   nodes (w_fs w) !! save_root w = Some DirN ->
   forall n x, nodes (w_fs w) !! (save_root w ++ [n]) = Some x ->
   (save_root w ++ [n]) ∈ faults (w_fs w) ->
   exists e, find_user_id_dirs w = (Err e, w)).
Proof.
  split; [|split].
  - intros ids w' H. apply find_user_id_dirs_ok in H as (es & _ & Hr & -> & Hnl & ->).
    split; [done|]. split; [apply NoDup_children; by eapply read_dir_nodup|].
    intros q. rewrite list_elem_of_fmap. split.
    + intros (n & -> & Hn). apply elem_of_entry_names in Hn as [b Hb].
      destruct (read_dir_inr _ _ _ _ _ Hr Hb) as (x & Hx & _). eauto.
    + intros (n & x & -> & Hx). exists n. split; [done|].
      destruct (read_dir_complete _ _ _ _ _ Hr Hx) as [Hi|[e He]].
      * apply elem_of_entry_names. eauto.
      * by destruct (Hnl e).
  - intros Ha Hs Hnone.
    assert (Hse : path_exists (w_fs w) (save_root w) = true) by (unfold path_exists; by rewrite Hs).
    unfold find_profiles_dirs, bind, context. rewrite (find_user_id_dirs_eq w Ha Hse).
    destruct (read_dir (save_root w) (w_fs w)) as [e|es] eqn:Hr.
    { unfold read_dir in Hr. by rewrite Hs in Hr. }
    destruct es as [|e es]; [reflexivity|]. exfalso.
    destruct e as [e|[n b]].
    + destruct (read_dir_inl _ _ _ e Hr) as (n & x & Hx); [by left|]. by rewrite Hnone in Hx.
    + destruct (read_dir_inr _ _ _ n b Hr) as (x & Hx & _); [by left|]. by rewrite Hnone in Hx.
  - intros Ha Hs n x Hx Hf.
    assert (Hse : path_exists (w_fs w) (save_root w) = true) by (unfold path_exists; by rewrite Hs).
    rewrite (find_user_id_dirs_eq w Ha Hse).
    destruct (read_dir (save_root w) (w_fs w)) as [e|es] eqn:Hr.
    { unfold read_dir in Hr. by rewrite Hs in Hr. }
    destruct (read_dir_faulted _ _ _ _ _ Hr Hx Hf) as [e He].
    by eapply push_sub_dirs_inl.
Qed.

(** A listing without unreadable entries is the list of its entries. *)
Lemma entries_all_inr (es : list dir_entry) :
  (forall e, inl e ∉ es) ->
  exists ns : list (string * bool), es = inr <$> ns /\ entry_names es = ns.*1.
Proof.
  induction es as [|[e|[n b]] es IH]; intros Hnl.
  - by exists [].
  - destruct (Hnl e). by left.
  - destruct IH as (ns & -> & Hn).
    { intros e He. apply (Hnl e). by right. }
    exists ((n, b) :: ns). split; [done|]. rewrite entry_names_cons_inr, Hn. done.
Qed.

(** C9: a successful profile resolution reads the save root without any
    unreadable entry, and returns one element per entry of that listing,
    in its order: the entry's path joined with [profiles]. *)
Theorem find_profiles_dirs_shape w l w' :
  find_profiles_dirs w = (Ok l, w') ->
  exists ns : list (string * bool),
    read_dir (save_root w) (w_fs w) = inr (inr <$> ns) /\
    find_user_id_dirs w = (Ok ((fun nb => save_root w ++ [nb.1]) <$> ns), w) /\
    l = (fun nb => save_root w ++ [nb.1; "profiles"]) <$> ns /\ w' = w.
Proof.
  unfold find_profiles_dirs, bind, context.
  destruct (find_user_id_dirs w) as [[ids| |] w1] eqn:Hf; [|done|done].
  intros Hp. apply push_profiles_dirs_ok in Hp as [-> ->].
  apply find_user_id_dirs_ok in Hf as (es & _ & Hr & -> & Hnl & ->).
  destruct (entries_all_inr es Hnl) as (ns & -> & Hn).
  exists ns. split; [done|]. rewrite Hn, <- list_fmap_compose. split; [done|]. split; [|done].
  rewrite app_nil_l, <- list_fmap_compose. apply list_fmap_ext. intros i n _.
  unfold compose. by rewrite <- app_assoc.
Qed.

(** C3 (as the code does it): when the identity directories are
    enumerated, the first one (in enumeration order) lacking [profiles]
    fails the resolution with a NotFound error naming its [profiles]
    path, provided that path is valid UTF-8; no list is returned. *)
Theorem find_profiles_dirs_missing w ids pre id post s :
  find_user_id_dirs w = (Ok ids, w) ->
  ids = pre ++ id :: post ->
  (forall q, q ∈ pre -> path_exists (w_fs w) (q ++ ["profiles"]) = true) ->
  path_exists (w_fs w) (id ++ ["profiles"]) = false ->
  to_str (id ++ ["profiles"]) = Some s ->
  find_profiles_dirs w =
    (Err (anyhow_new (IoError NotFound ("Profiles dir not found at " ++ s))), w).
Proof.
  intros Hf -> Hpre Hid Hs. unfold find_profiles_dirs, bind, context. rewrite Hf.
  rewrite (push_profiles_dirs_first_missing pre id post [] w Hpre Hid), Hs. reflexivity.
Qed.

(** C3: a single identity directory, lacking [profiles], whose name is
    not valid UTF-8: the resolution panics instead of failing with a
    NotFound error. *)
Lemma find_profiles_dirs_missing_counterexample :
  fst (find_user_id_dirs ex_w_bad) = Ok [ex_save ++ [non_utf8_name]] /\
  path_exists (w_fs ex_w_bad) (ex_save ++ [non_utf8_name; "profiles"]) = false /\
  fst (find_profiles_dirs ex_w_bad) = Panic "dir path should be a valid string".
Proof. split; [|split]; reflexivity. Qed.

Lemma find_profiles_dirs_missing_witness :
  find_profiles_dirs ex_w_missing =
    (Err (anyhow_new (IoError NotFound
       ("Profiles dir not found at " ++ join_path (ex_save ++ ["0"; "profiles"])))), ex_w_missing).
Proof.
  apply (find_profiles_dirs_missing ex_w_missing [ex_save ++ ["0"]] [] (ex_save ++ ["0"]) []).
  - reflexivity.
  - reflexivity.
  - intros q Hq. by apply not_elem_of_nil in Hq.
  - reflexivity.
  - reflexivity.
Defined.

(* ------------------------------------------------------------------ *)
(** ** Paths that are not valid UTF-8 *)

(** C8 (as the code does it): the resolution panics when the first
    identity directory (in enumeration order) whose [profiles] path is
    absent has a path that is not valid UTF-8; [scumm_profile] panics
    when its absent profile directory has a path that is not valid UTF-8.
    The world is unchanged in both cases. *)
Theorem profiles_path_not_utf8_panics :
  (forall w ids pre id post,
     find_user_id_dirs w = (Ok ids, w) ->
     ids = pre ++ id :: post ->
     (forall q, q ∈ pre -> path_exists (w_fs w) (q ++ ["profiles"]) = true) ->
     path_exists (w_fs w) (id ++ ["profiles"]) = false ->
     to_str (id ++ ["profiles"]) = None ->
     find_profiles_dirs w = (Panic "dir path should be a valid string", w)) /\
  (forall pd sd w,
     path_exists (w_fs w) pd = false -> to_str pd = None ->
     scumm_profile pd sd w = (Panic "dir path should be a valid string", w)).
Proof.
  split.
  - intros w ids pre id post Hf -> Hpre Hid Hs. unfold find_profiles_dirs, bind, context.
    rewrite Hf, (push_profiles_dirs_first_missing pre id post [] w Hpre Hid), Hs.
    reflexivity.
  - intros pd sd w Hp Hs. unfold scumm_profile, bind, gets. simpl. rewrite Hp, Hs.
    reflexivity.
Qed.

Lemma profiles_path_not_utf8_panics_witness :
  find_profiles_dirs ex_w_bad = (Panic "dir path should be a valid string", ex_w_bad) /\
  scumm_profile (ex_save ++ [non_utf8_name; "profiles"]) (ex_app ++ ["scummed"]) ex_w_bad =
    (Panic "dir path should be a valid string", ex_w_bad).
Proof.
  split.
  - apply (proj1 profiles_path_not_utf8_panics ex_w_bad [ex_save ++ [non_utf8_name]] []
             (ex_save ++ [non_utf8_name]) []).
    + reflexivity.
    + reflexivity.
    + intros q Hq. by apply not_elem_of_nil in Hq.
    + reflexivity.
    + reflexivity.
  - apply (proj2 profiles_path_not_utf8_panics); reflexivity.
Defined.

(** C8: two identity directories lack [profiles]: [é] (valid UTF-8),
    enumerated first, and one whose name is not valid UTF-8.  The
    resolution returns the NotFound error of the first and does not
    panic. *)
Lemma profiles_path_not_utf8_counterexample :
  fst (find_user_id_dirs ex_w_mixed) = Ok [ex_save ++ [e_acute]; ex_save ++ [non_utf8_name]] /\
  path_exists (w_fs ex_w_mixed) (ex_save ++ [non_utf8_name; "profiles"]) = false /\
  to_str (ex_save ++ [non_utf8_name; "profiles"]) = None /\
  fst (find_profiles_dirs ex_w_mixed) =
    Err (anyhow_new (IoError NotFound
      ("Profiles dir not found at " ++ join_path (ex_save ++ [e_acute; "profiles"])))).
Proof. split; [|split; [|split]]; reflexivity. Qed.

Lemma find_profiles_dirs_shape_witness :
  exists l ns, find_profiles_dirs ex_w_two = (Ok l, ex_w_two) /\
    read_dir (save_root ex_w_two) (w_fs ex_w_two) = inr (inr <$> ns) /\
    ns.*1 = ["b"; "a"] /\
    l = [ex_save ++ ["b"; "profiles"]; ex_save ++ ["a"; "profiles"]].
Proof.
  assert (H : find_profiles_dirs ex_w_two =
                (Ok [ex_save ++ ["b"; "profiles"]; ex_save ++ ["a"; "profiles"]], ex_w_two))
    by reflexivity.
  destruct (find_profiles_dirs_shape _ _ _ H) as (ns & Hr & _ & Hl & _).
  assert (Hr2 : read_dir (save_root ex_w_two) (w_fs ex_w_two) =
                  inr [inr ("b", true); inr ("a", true)]) by reflexivity.
  rewrite Hr2 in Hr. injection Hr as Hr.
  destruct ns as [|[n1 b1] [|[n2 b2] [|]]]; try discriminate Hr.
  injection Hr; intros; subst.
  exists [ex_save ++ ["b"; "profiles"]; ex_save ++ ["a"; "profiles"]], [("b", true); ("a", true)].
  split; [exact H|]. split; [exact Hr2|]. split; [reflexivity|]. reflexivity.
Defined.

Lemma find_user_id_dirs_children_witness :
  find_profiles_dirs ex_w_empty = (Ok [], ex_w_empty) /\
  (exists e, find_user_id_dirs ex_w_faulted = (Err e, ex_w_faulted)) /\
  (exists ids, find_user_id_dirs ex_w_two = (Ok ids, ex_w_two) /\ NoDup ids).
Proof.
  split; [|split].
  - apply (find_user_id_dirs_children ex_w_empty).
    + reflexivity.
    + reflexivity.
    + intros n. apply not_elem_of_list_to_map_1. rewrite list_elem_of_In. simpl.
      intros Hin. repeat destruct Hin as [Hin|Hin]; discriminate Hin || exact Hin.
  - apply (find_user_id_dirs_children ex_w_faulted) with (n := ex_steam_id) (x := DirN).
    + reflexivity.
    + reflexivity.
    + reflexivity.
    + apply (bool_decide_unpack (save_root ex_w_faulted ++ [ex_steam_id] ∈ faults (w_fs ex_w_faulted))).
      vm_compute. reflexivity.
  - assert (H : find_user_id_dirs ex_w_two = (Ok [ex_save ++ ["b"]; ex_save ++ ["a"]], ex_w_two))
      by (reflexivity).
    destruct (proj1 (find_user_id_dirs_children ex_w_two) _ _ H) as (_ & Hnd & _).
    eexists. split; [exact H|exact Hnd].
Defined.

(** C10 (as the code does it): when the profile directory is absent,
    [scumm_profile] returns before touching the file system, with the
    world unchanged: a NotFound error naming the path when the path is
    valid UTF-8, a panic otherwise. *)
Theorem scumm_profile_absent pd sd w :
  path_exists (w_fs w) pd = false ->
  scumm_profile pd sd w =
  (match to_str pd with
   | None => Panic "dir path should be a valid string"
   | Some s => Err (anyhow_new (IoError NotFound ("Profiles dir not found at " ++ s)))
   end, w).
Proof.
  intros Hp. unfold scumm_profile, bind, gets. simpl. rewrite Hp. simpl.
  by destruct (to_str pd).
Qed.

Lemma scumm_profile_absent_witness :
  scumm_profile (ex_save ++ ["0"; "profiles"]) (ex_app ++ ["scummed"]) ex_w_empty =
  (match to_str (ex_save ++ ["0"; "profiles"]) with
   | None => Panic "dir path should be a valid string"
   | Some s => Err (anyhow_new (IoError NotFound ("Profiles dir not found at " ++ s)))
   end, ex_w_empty).
Proof. apply scumm_profile_absent. reflexivity. Defined.

(** C10: an absent profile directory whose path is not valid UTF-8: the
    world is unchanged, but the call panics instead of failing with a
    NotFound error. *)
Lemma scumm_profile_absent_counterexample :
  path_exists (w_fs ex_w_bad) (ex_save ++ [non_utf8_name; "profiles"]) = false /\
  scumm_profile (ex_save ++ [non_utf8_name; "profiles"]) (ex_app ++ ["scummed"]) ex_w_bad =
    (Panic "dir path should be a valid string", ex_w_bad).
Proof. split; reflexivity. Qed.

(* ------------------------------------------------------------------ *)
(** ** The backup store *)

Lemma ensure_scumm_dir_eq w :
  ensure_scumm_dir w =
  let app := app_data_path (username w) in
  if path_exists (w_fs w) app then
    if path_exists (w_fs w) (app ++ [SCUMM_DIR_NAME]) then (Ok (app ++ [SCUMM_DIR_NAME]), w)
    else match mkdir (app ++ [SCUMM_DIR_NAME]) (w_fs w) with
         | inl e => (Err (with_context (anyhow_new e) "Failed to create scumm dir"), w)
         | inr fs' => (Ok (app ++ [SCUMM_DIR_NAME]), set_fs w fs')
         end
  else (Err (with_context (anyhow_new (IoError NotFound "Darkest Dungeon 2 app dir not found"))
               "Failed to create scumm dir"), w).
Proof.
  cbv zeta. unfold ensure_scumm_dir, bind, context at 1. rewrite find_app_dir_eq.
  destruct (path_exists (w_fs w) (app_data_path (username w))); [|reflexivity].
  unfold gets, ret, context, lift_fs, io_fs. cbv beta iota zeta.
  destruct (path_exists (w_fs w) (app_data_path (username w) ++ [SCUMM_DIR_NAME]));
    [reflexivity|].
  destruct (mkdir (app_data_path (username w) ++ [SCUMM_DIR_NAME]) (w_fs w)); [|reflexivity].
  by destruct w.
Qed.

(** C5: calling [ensure_scumm_dir] again after a success returns the same
    path and leaves the world as it is; when the backup directory
    already exists, the call returns its path at once without changing
    anything. *)
Theorem ensure_scumm_dir_idempotent w :
  (forall p w1, ensure_scumm_dir w = (Ok p, w1) -> ensure_scumm_dir w1 = (Ok p, w1)) /\
  (path_exists (w_fs w) (app_data_path (username w)) = true ->
   path_exists (w_fs w) (app_data_path (username w) ++ [SCUMM_DIR_NAME]) = true ->
   ensure_scumm_dir w = (Ok (app_data_path (username w) ++ [SCUMM_DIR_NAME]), w)).
Proof.
  split.
  - intros p w1. rewrite ensure_scumm_dir_eq. cbv zeta.
    destruct (path_exists (w_fs w) (app_data_path (username w))) eqn:Ha; [|done].
    destruct (path_exists (w_fs w) (app_data_path (username w) ++ [SCUMM_DIR_NAME])) eqn:Hs.
    + intros [= <- <-]. rewrite ensure_scumm_dir_eq. cbv zeta. by rewrite Ha, Hs.
    + destruct (mkdir (app_data_path (username w) ++ [SCUMM_DIR_NAME]) (w_fs w))
        as [e|fs'] eqn:Hm; [done|].
      intros [= <- <-]. apply mkdir_spec in Hm as (_ & _ & Hn & _).
      rewrite ensure_scumm_dir_eq. cbv zeta. unfold path_exists in *. simpl. rewrite Hn.
      rewrite lookup_insert_eq, lookup_insert_ne; [by rewrite Ha|].
      intros Heq. apply (f_equal List.length) in Heq. rewrite length_app in Heq. simpl in Heq. lia.
  - intros Ha Hs. rewrite ensure_scumm_dir_eq. cbv zeta. by rewrite Ha, Hs.
Qed.

Lemma ensure_scumm_dir_idempotent_witness :
  (exists p w1, ensure_scumm_dir ex_w_one = (Ok p, w1) /\ ensure_scumm_dir w1 = (Ok p, w1)) /\
  ensure_scumm_dir ex_w_scummed = (Ok (ex_app ++ [SCUMM_DIR_NAME]), ex_w_scummed).
Proof.
  split.
  - assert (H : ensure_scumm_dir ex_w_one =
                  (Ok (ex_app ++ [SCUMM_DIR_NAME]),
                   set_fs ex_w_one (set_nodes (w_fs ex_w_one)
                     (<[ex_app ++ [SCUMM_DIR_NAME] := DirN]> (nodes (w_fs ex_w_one))))))
      by reflexivity.
    eexists _, _. split; [exact H|]. exact (proj1 (ensure_scumm_dir_idempotent ex_w_one) _ _ H).
  - apply (proj2 (ensure_scumm_dir_idempotent ex_w_scummed)); reflexivity.
Defined.

(** C7 (as the code does it): a failure of the app-data locator is
    returned by [ensure_scumm_dir] with the context message
    ["Failed to create scumm dir"] added. *)
Theorem ensure_scumm_dir_locator_error w e w' :
  find_darkest_dungeon_2_app_data_dir w = (Err e, w') ->
  ensure_scumm_dir w = (Err (with_context e "Failed to create scumm dir"), w').
Proof. intros H. unfold ensure_scumm_dir, bind, context at 1. rewrite H. reflexivity. Qed.

Lemma ensure_scumm_dir_locator_error_witness :
  ensure_scumm_dir ex_w_noapp =
  (Err (with_context (anyhow_new (IoError NotFound "Darkest Dungeon 2 app dir not found"))
          "Failed to create scumm dir"), ex_w_noapp).
Proof. apply ensure_scumm_dir_locator_error. reflexivity. Defined.

(** C7: without the app-data directory, the error of [ensure_scumm_dir]
    is not the locator's error with the context ["failed to create scumm
    dir"]: the message the code adds is ["Failed to create scumm dir"]. *)
Lemma ensure_scumm_dir_locator_error_counterexample :
  fst (find_darkest_dungeon_2_app_data_dir ex_w_noapp) =
    Err (anyhow_new (IoError NotFound "Darkest Dungeon 2 app dir not found")) /\
  forall e, fst (ensure_scumm_dir ex_w_noapp) <> Err (with_context e "failed to create scumm dir").
Proof.
  split; [reflexivity|]. intros e. change (fst (ensure_scumm_dir ex_w_noapp)) with
    (@Err path (with_context (anyhow_new (IoError NotFound "Darkest Dungeon 2 app dir not found"))
                 "Failed to create scumm dir")).
  unfold with_context. simpl. intros H. injection H as _ H.
  destruct (err_context e) as [|c l]; simpl in H; [discriminate H|].
  injection H as _ H. by destruct l.
Qed.

(* ------------------------------------------------------------------ *)
(** ** More than one profile directory *)

(** C4 (as the code does it): when the resolution returns more than one
    profile directory, [main] prints
    ["Found N profile dirs, but currently only support 1 dir"] and stops:
    the file system, the clock and everything else are unchanged. *)
Theorem main_rejects_many w dirs w1 :
  find_profiles_dirs w = (Ok dirs, w1) ->
  (1 < List.length dirs)%nat ->
  main w = (Ok tt, mkWorld (w_fs w) (username w) (clock w) (ticks w)
                     (stdout w ++ [("Found " ++ dec (Z.of_nat (List.length dirs))
                                   ++ " profile dirs, but currently only support 1 dir")%string])).
Proof.
  intros H Hl. pose proof (find_profiles_dirs_pure _ _ _ H) as ->.
  unfold main, bind at 1, attempt. rewrite H.
  destruct (List.length dirs =? 0)%nat eqn:H0; [apply Nat.eqb_eq in H0; lia|].
  apply Nat.ltb_lt in Hl. rewrite Hl. reflexivity.
Qed.

Lemma main_rejects_many_witness :
  main ex_w_two =
  (Ok tt, mkWorld (w_fs ex_w_two) (username ex_w_two) (clock ex_w_two) (ticks ex_w_two)
            (stdout ex_w_two ++ ["Found 2 profile dirs, but currently only support 1 dir"])).
Proof.
  apply (main_rejects_many ex_w_two [ex_save ++ ["b"; "profiles"]; ex_save ++ ["a"; "profiles"]]
           ex_w_two).
  - reflexivity.
  - simpl. lia.
Defined.

(** C4: with two identity directories each holding [profiles], [main]
    prints ["Found 2 profile dirs, but currently only support 1 dir"],
    not ["found 2 profile dirs, currently only support 1"]. *)
Lemma main_rejects_many_counterexample :
  stdout (snd (main ex_w_two)) = ["Found 2 profile dirs, but currently only support 1 dir"] /\
  stdout (snd (main ex_w_two)) <> ["found 2 profile dirs, currently only support 1"].
Proof. split; [reflexivity|]. vm_compute. discriminate. Qed.

(* ------------------------------------------------------------------ *)
(** ** The destination of a backup *)

Lemma string_app_nil_r (s : string) : (s ++ "")%string = s.
Proof. induction s as [|c s IH]; [reflexivity|exact (f_equal (String c) IH)]. Qed.

Lemma format_dest t : format t DEST_FORMAT = Some (stamp_of t).
Proof.
  unfold format, DEST_FORMAT, stamp_of, stamp_frac. simpl.
  rewrite string_app_nil_r. reflexivity.
Qed.

Lemma string_length_app (a b : string) :
  String.length (a ++ b) = (String.length a + String.length b)%nat.
Proof. induction a as [|c a IH]; [reflexivity|exact (f_equal S IH)]. Qed.

Lemma zeros_length m : String.length (String.concat "" (repeat "0" m)) = m.
Proof.
  induction m as [|[|m] IH]; [done|done|].
  change (String.concat "" (repeat "0" (S (S m))))
    with ("0" ++ "" ++ String.concat "" (repeat "0" (S m)))%string.
  exact (f_equal S IH).
Qed.

Lemma dec_aux_length fuel : forall z acc k,
  (0 <= z)%Z -> (1 <= k)%nat -> (z < 10 ^ Z.of_nat k)%Z ->
  (String.length (dec_aux fuel z acc) <= k + String.length acc)%nat.
Proof.
  induction fuel as [|fuel IH]; intros z acc k Hz Hk Hlt; simpl; [lia|].
  destruct (z <? 10)%Z eqn:H10; simpl; [lia|].
  apply Z.ltb_ge in H10.
  destruct k as [|[|k]]; [lia|simpl in Hlt; lia|].
  assert (Hd : (z / 10 < 10 ^ Z.of_nat (S k))%Z).
  { apply Z.div_lt_upper_bound; [lia|].
    rewrite (Nat2Z.inj_succ (S k)), Z.pow_succ_r in Hlt by lia. lia. }
  specialize (IH (z / 10)%Z (String (ascii_of_nat (48 + Z.to_nat (z mod 10))) acc) (S k)).
  simpl in IH. assert (0 <= z / 10)%Z by (apply Z.div_pos; lia). lia.
Qed.

Lemma stamp_frac_length t : String.length (stamp_frac t) = 9%nat.
Proof.
  unfold stamp_frac, pad. rewrite string_length_app, zeros_length.
  assert (Hb : (0 <= nsec t mod 1000000000 < 1000000000)%Z) by (apply Z.mod_pos_bound; lia).
  enough (String.length (dec (nsec t mod 1000000000)) <= 9)%nat by lia.
  revert Hb. generalize (nsec t mod 1000000000)%Z as z. intros z Hb.
  unfold dec. destruct z as [|p|p]; [simpl; lia| |lia].
  pose proof (dec_aux_length (Pos.to_nat (Pos.size p)) (Z.pos p) "" 9
                ltac:(lia) ltac:(lia) ltac:(simpl; lia)) as H.
  simpl in H. lia.
Qed.

(** The copier leaves an existing destination where it is. *)
Lemma for_each_copy_entry_keeps (recur : path -> path -> M FS unit) src dst :
  (forall s d fs fs', recur s d fs = (Ok tt, fs') ->
     frame d (nodes fs) (nodes fs') /\ faults fs' = faults fs) ->
  forall es fs1 fs' x,
  for_each es (copy_entry recur src dst) fs1 = (Ok tt, fs') ->
  nodes fs1 !! dst = Some x -> nodes fs' !! dst = Some x.
Proof.
  intros Hrec es. induction es as [|e es IHes]; intros fs1 fs' x Hl Hx.
  { simpl in Hl. by injection Hl as <-. }
  apply for_each_ok_cons in Hl as (fs2 & H1 & H2). apply (IHes fs2); [done|].
  apply copy_entry_ok in H1 as (n & b & -> & Hd & Hfile).
  destruct b.
  - destruct (Hrec _ _ _ _ (Hd eq_refl)) as [Hfr _].
    rewrite Hfr; [done|apply (not_prefix_longer dst n [])|by left].
  - destruct (copy_file_any _ _ _ _ (Hfile eq_refl)) as (c & c' & _ & Hn & _).
    rewrite Hn, lookup_insert_ne; [done|].
    intros Heq. apply (f_equal List.length) in Heq. rewrite length_app in Heq. simpl in Heq. lia.
Qed.

(** A successful copy leaves its destination a directory. *)
Lemma copy_dir_recursively_dst fuel src dst fs fs' :
  dst <> [] -> copy_dir_recursively fuel src dst fs = (Ok tt, fs') ->
  nodes fs' !! dst = Some DirN.
Proof.
  intros Hne H.
  apply copy_dir_recursively_ok in H as (fuel' & fs1 & es & -> & Hc & _ & Hl).
  eapply for_each_copy_entry_keeps; [|exact Hl|].
  - intros s d f f'. apply copy_dir_recursively_frame.
  - unfold create_dir_all in Hc. destruct (rev dst) as [|x rp] eqn:Hr.
    + apply (f_equal (@rev _)) in Hr. rewrite rev_involutive in Hr. by subst.
    + apply create_dir_all_rev_dir in Hc. by rewrite <- Hr, rev_involutive in Hc.
Qed.

(** Past a reading of the clock that did not panic. *)
Ltac utc_now_ok :=
  unfold utc_now at 1; cbv beta iota zeta;
  destruct (secs _ <? 0)%Z; [intros; discriminate|];
  destruct (MAX_YEAR <? _)%Z; [intros; discriminate|]; cbv beta iota.

(** C1 (as the code does it): the destination of a successful
    [scumm_profile] is the backup root joined with the instant read at
    that point rendered as [YYYY-MM-DDTHH-MM-SS.fffffffff]: the fraction
    is chrono's [%f], nanoseconds on nine digits.  That directory
    exists afterwards. *)
Theorem scumm_profile_dest pd sd w r w' :
  scumm_profile pd sd w = (Ok r, w') ->
  dest_path r = sd ++ [stamp_of (clock w (ticks w))] /\
  String.length (stamp_frac (clock w (ticks w))) = 9%nat /\
  nodes (w_fs w') !! dest_path r = Some DirN.
Proof.
  unfold scumm_profile, bind, gets. cbv beta iota.
  destruct (path_exists (w_fs w) pd); cbn [negb]; cbv beta iota;
    [|unfold throw, panic; destruct (to_str pd); intros; discriminate].
  utc_now_ok.
  rewrite format_dest. unfold lift_fs. cbv beta iota.
  destruct (copy_dir_recursively _ pd _ _) as [[[]| |] fs1] eqn:Hc;
    try (intros; discriminate).
  utc_now_ok. unfold ret. intros [= <- <-]. simpl.
  split; [done|]. split; [apply stamp_frac_length|].
  eapply copy_dir_recursively_dst; [|exact Hc]. by destruct sd.
Qed.

Lemma scumm_profile_dest_witness :
  exists r w',
    scumm_profile (ex_save ++ [ex_steam_id; "profiles"]) (ex_app ++ ["scummed"]) ex_w_one
      = (Ok r, w') /\
    dest_path r = ex_app ++ ["scummed"; stamp_of ex_t] /\
    String.length (stamp_frac ex_t) = 9%nat /\
    nodes (w_fs w') !! dest_path r = Some DirN.
Proof.
  destruct (scumm_profile (ex_save ++ [ex_steam_id; "profiles"]) (ex_app ++ ["scummed"]) ex_w_one)
    as [o w'] eqn:H.
  assert (Ho : exists r, o = Ok r).
  { assert (Hf : fst (scumm_profile (ex_save ++ [ex_steam_id; "profiles"]) (ex_app ++ ["scummed"])
                       ex_w_one) = Ok (Build_ScummedProfile (ex_save ++ [ex_steam_id; "profiles"])
                                        (ex_app ++ ["scummed"; stamp_of ex_t]) ex_t))
      by reflexivity.
    rewrite H in Hf. simpl in Hf. eauto. }
  destruct Ho as [r ->].
  destruct (scumm_profile_dest _ _ _ _ _ H) as (Hd & Hl & Hn).
  exists r, w'. split; [reflexivity|]. split; [|exact (conj Hl Hn)].
  rewrite Hd, <- app_assoc. reflexivity.
Defined.

(** C1: on the example run (clock at 2023-11-14T22:13:20.1234567 UTC)
    the destination's name has nine fractional digits, not the six of
    the microsecond pattern. *)
Lemma scumm_profile_dest_counterexample :
  match fst (scumm_profile (ex_save ++ [ex_steam_id; "profiles"]) (ex_app ++ ["scummed"]) ex_w_one)
  with
  | Ok r => dest_path r = ex_app ++ ["scummed"; "2023-11-14T22-13-20.123456700"] /\
            dest_path r <> ex_app ++ ["scummed"; spec_stamp_micro ex_t]
  | _ => False
  end.
Proof. vm_compute. split; [reflexivity|discriminate]. Qed.

(* ------------------------------------------------------------------ *)
(** ** When the copier succeeds *)

Lemma create_dir_all_single dst fs :
  dst <> [] -> nodes fs !! dst = None -> nodes fs !! removelast dst = Some DirN ->
  create_dir_all dst fs = inr (set_nodes fs (<[dst := DirN]> (nodes fs))).
Proof.
  intros Hne Hd Hp. unfold create_dir_all.
  destruct (rev dst) as [|x rp] eqn:Hr.
  { apply (f_equal (@rev _)) in Hr. rewrite rev_involutive in Hr. done. }
  apply (f_equal (@rev _)) in Hr. rewrite rev_involutive in Hr. simpl in Hr. subst dst.
  simpl. unfold mkdir. rewrite Hd. rewrite removelast_last in Hp |- *. by rewrite Hp.
Qed.

Lemma read_dir_inl_faulted p fs es e :
  read_dir p fs = inr es -> inl e ∈ es -> exists n, (p ++ [n]) ∈ faults fs.
Proof.
  unfold read_dir. destruct (nodes fs !! p) as [[|]|]; intros Hr He; simplify_eq.
  apply list_elem_of_omap in He as [[k x] [Hin He]]. unfold entry_of in He. simpl in He.
  destruct (child_name p k) as [n|] eqn:Hc; [|done].
  apply child_name_spec in Hc as ->. exists n.
  by destruct (decide ((p ++ [n]) ∈ faults fs)).
Qed.

(** The copier succeeds on a readable source directory whose depth is
    below the fuel, copied to a fresh destination outside it whose
    ancestors are directories. *)
Lemma copy_dir_recursively_succeeds fuel : forall src dst fs,
  subtree_closed fs src ->
  nodes fs !! src = Some DirN ->
  (forall r, nodes fs !! (dst ++ r) = None) ->
  ~ src `prefix_of` dst ->
  (forall k, k `prefix_of` dst -> k <> dst -> nodes fs !! k = Some DirN) ->
  (forall r, (src ++ r) ∉ faults fs) ->
  (forall r x, nodes fs !! (src ++ r) = Some x -> (List.length r < fuel)%nat) ->
  exists fs', copy_dir_recursively fuel src dst fs = (Ok tt, fs').
Proof.
  induction fuel as [|fuel IH]; intros src dst fs Hcl Hsrc Hfresh Hns Hanc Hnf Hdepth.
  { specialize (Hdepth [] DirN). rewrite app_nil_r in Hdepth. apply Hdepth in Hsrc. lia. }
  assert (Hsd : forall r, ~ dst `prefix_of` src ++ r).
  { intros r Hp. destruct (prefix_weak_total dst src (src ++ r) Hp (prefix_app_r _ _ _ (reflexivity _)))
      as [[t ->]|Hp2]; [|done]. by rewrite Hfresh in Hsrc. }
  assert (Hds : forall r, ~ (src ++ r) `prefix_of` dst).
  { intros r Hp. apply Hns. by eapply prefix_app_l. }
  assert (Hne : dst <> []).
  { intros ->. specialize (Hfresh src). simpl in Hfresh. congruence. }
  (* [create_dir_all dst] is one [mkdir] *)
  destruct (exists_last Hne) as (d0 & x & Hdx).
  set (fs1 := set_nodes fs (<[dst := DirN]> (nodes fs))).
  assert (Hc : create_dir_all dst fs = inr fs1).
  { apply create_dir_all_single; [done| |].
    - rewrite <- (app_nil_r dst). apply Hfresh.
    - rewrite Hdx, removelast_last. apply Hanc.
      + rewrite Hdx. by exists [x].
      + rewrite Hdx. intros Heq. apply (f_equal List.length) in Heq.
        rewrite length_app in Heq. simpl in Heq. lia. }
  assert (Hsrc1 : forall r, nodes fs1 !! (src ++ r) = nodes fs !! (src ++ r)).
  { intros r. simpl. rewrite lookup_insert_ne; [done|]. intros Heq. apply (Hsd r).
    rewrite Heq. done. }
  assert (Hdir1 : forall k, k `prefix_of` dst -> nodes fs1 !! k = Some DirN).
  { intros k Hk. simpl. destruct (decide (k = dst)) as [->|Hkd].
    - by rewrite lookup_insert_eq.
    - rewrite lookup_insert_ne; [by apply Hanc|done]. }
  assert (Hfresh1 : forall n r, nodes fs1 !! (dst ++ n :: r) = None).
  { intros n r. simpl. rewrite lookup_insert_ne; [apply Hfresh|].
    intros Heq. apply (f_equal List.length) in Heq. rewrite length_app in Heq. simpl in Heq. lia. }
  (* the listing of the source *)
  assert (Hr : read_dir src fs1 = inr (omap (entry_of fs1 src) (map_to_list (nodes fs1)))).
  { unfold read_dir. rewrite <- (app_nil_r src), Hsrc1, app_nil_r, Hsrc. reflexivity. }
  set (es := omap (entry_of fs1 src) (map_to_list (nodes fs1))) in Hr.
  assert (Hnd := read_dir_nodup _ _ _ Hr).
  assert (Hnoinl : forall e, inl e ∉ es).
  { intros e He. destruct (read_dir_inl_faulted _ _ _ _ Hr He) as [n Hn].
    by apply (Hnf [n]). }
  assert (Hin : forall n b, inr (n, b) ∈ es ->
            exists x, nodes fs !! (src ++ [n]) = Some x /\ is_dir x = b).
  { intros n b Hnb. destruct (read_dir_inr _ _ _ _ _ Hr Hnb) as (x' & Hx & Hb).
    rewrite Hsrc1 in Hx. eauto. }
  (* the loop over the entries *)
  assert (Hloop : forall es0 fsk,
     NoDup (entry_names es0) ->
     (forall e, inl e ∉ es0) ->
     (forall n b, inr (n, b) ∈ es0 ->
        exists x, nodes fs !! (src ++ [n]) = Some x /\ is_dir x = b) ->
     (forall r, nodes fsk !! (src ++ r) = nodes fs !! (src ++ r)) ->
     (forall k, k `prefix_of` dst -> nodes fsk !! k = Some DirN) ->
     (forall n r, n ∈ entry_names es0 -> nodes fsk !! (dst ++ n :: r) = None) ->
     faults fsk = faults fs ->
     exists fse, for_each es0 (copy_entry (copy_dir_recursively fuel) src dst) fsk = (Ok tt, fse)).
  { clear Hnd Hnoinl Hin Hr Hsrc1 Hdir1 Hfresh1 Hc.
    intros es0. induction es0 as [|e es0 IHes]; intros fsk Hnd Hnl Hin Hsk Hdk Hfk Hflt.
    { by exists fsk. }
    destruct e as [e|[n b]]; [exfalso; apply (Hnl e); by left|].
    rewrite entry_names_cons_inr in Hnd, Hfk.
    apply NoDup_cons in Hnd as [Hnn Hnd].
    destruct (Hin n b) as (x' & Hx & Hb); [by left|].
    assert (Hstep : exists fsk', copy_entry (copy_dir_recursively fuel) src dst (inr (n, b)) fsk
                                   = (Ok tt, fsk') /\
              frame (dst ++ [n]) (nodes fsk) (nodes fsk') /\ faults fsk' = faults fsk).
    { destruct b.
      - destruct x' as [|c]; [|done].
        destruct (IH (src ++ [n]) (dst ++ [n]) fsk) as [fsk' Hrec].
        + apply closed_app. eapply closed_agree; [apply Hsk|done].
        + by rewrite Hsk.
        + intros r'. rewrite <- app_assoc. apply Hfk. by left.
        + intros Hp. apply Hns. by eapply prefix_snoc_cancel.
        + intros k Hk Hkn. apply prefix_snoc_inv in Hk as [Hk| ->]; [by apply Hdk|done].
        + intros r'. rewrite Hflt, <- app_assoc. apply Hnf.
        + intros r' y Hy. rewrite <- app_assoc, Hsk in Hy. apply Hdepth in Hy. simpl in Hy. lia.
        + exists fsk'. split.
          * unfold copy_entry, bind, io, context. cbv beta iota. by rewrite Hrec.
          * by apply copy_dir_recursively_frame in Hrec.
      - destruct x' as [|c]; [done|].
        exists (set_nodes fsk (<[dst ++ [n] := FileN c]> (nodes fsk))). split; [|split].
        + unfold copy_entry, bind, io, context, io_fs. cbv beta iota.
          unfold copy_file. rewrite Hsk, Hx, removelast_last, Hdk; [|done].
          rewrite Hfk; [|by left]. rewrite decide_False; [reflexivity|].
          by apply snoc_ne.
        + intros q Hq _. simpl. rewrite lookup_insert_ne; [done|]. intros <-. by apply Hq.
        + done. }
    destruct Hstep as (fsk' & Hstep & Hfr & Hflt').
    destruct (IHes fsk') as [fse Hfe].
    { done. }
    { intros e He. apply (Hnl e). by right. }
    { intros m b' Hm. apply Hin. by right. }
    { intros r. rewrite Hfr; [apply Hsk| |].
      - intros Hp. apply (Hsd r). by eapply prefix_app_l.
      - right. intros [Hp| Hp]%prefix_snoc_inv; [by apply (Hds r)|].
        apply (Hsd r). rewrite Hp. by exists [n]. }
    { intros k Hk. rewrite Hfr; [by apply Hdk| |by left; eexists; apply Hdk].
      intros Hp. apply (not_prefix_longer dst n []). by etrans. }
    { intros m r Hm. rewrite Hfr; [apply Hfk; by right| |].
      - apply sibling_not_prefix. intros ->. done.
      - right. apply sibling_not_prefix'. intros ->. done. }
    { congruence. }
    exists fse. simpl. unfold bind at 1. by rewrite Hstep. }
  destruct (Hloop es fs1 Hnd Hnoinl Hin Hsrc1 Hdir1) as [fse Hfe].
  { intros n r _. apply Hfresh1. }
  { reflexivity. }
  exists fse. simpl. unfold bind, context at 1, io_fs. rewrite Hc.
  unfold context, io. rewrite Hr. exact Hfe.
Qed.

Lemma keys_le_size (m : gmap path node) (l : list path) :
  NoDup l -> (forall k, k ∈ l -> is_Some (m !! k)) -> (List.length l <= size m)%nat.
Proof.
  intros Hnd Hl. rewrite <- length_map_to_list, <- (length_fmap fst).
  apply NoDup_incl_length; [by apply NoDup_ListNoDup|]. intros k Hk. apply list_elem_of_In in Hk.
  destruct (Hl k Hk) as [y Hy]. apply list_elem_of_In, list_elem_of_fmap.
  exists (k, y). split; [done|]. by apply elem_of_map_to_list.
Qed.

(** The fuel [copy_fuel] exceeds the depth of every node below a source
    whose nodes all have directories as parents. *)
Lemma copy_fuel_depth fs src r x :
  subtree_closed fs src -> nodes fs !! (src ++ r) = Some x ->
  (List.length r < copy_fuel fs)%nat.
Proof.
  intros Hcl Hx. unfold copy_fuel. apply Nat.lt_succ_r.
  change (map_size (nodes fs)) with (size (nodes fs)).
  set (l := (fun i => src ++ take i r) <$> seq 1 (List.length r)).
  assert (Hlen : List.length l = List.length r) by (unfold l; by rewrite length_fmap, length_seq).
  rewrite <- Hlen. apply keys_le_size.
  - apply NoDup_fmap_2_strong; [|apply NoDup_seq].
    intros i j Hi Hj Heq. apply app_inv_head in Heq. apply (f_equal List.length) in Heq.
    rewrite !length_take in Heq. apply elem_of_seq in Hi, Hj. lia.
  - intros k Hk. unfold l in Hk. apply list_elem_of_fmap in Hk as (i & -> & Hi).
    apply elem_of_seq in Hi.
    destruct (decide (i = List.length r)) as [->|Hir].
    + rewrite firstn_all. by eexists.
    + eexists. eapply (closed_descendant _ _ _ (drop i r)); [done| |].
      * intros Hd. apply (f_equal List.length) in Hd. rewrite length_drop in Hd. simpl in Hd. lia.
      * rewrite take_drop. by eexists.
Qed.

(** With the fuel the program gives it, [copy_dir_recursively src dst]
    succeeds when [src] is a directory whose nodes have directories as
    parents and whose entries can all be read, [dst] is fresh and outside
    [src], and every proper ancestor of [dst] is a directory; afterwards
    the tree under [dst] is the tree under [src]. *)
Theorem copy_dir_recursively_complete src dst fs :
  subtree_closed fs src ->
  nodes fs !! src = Some DirN ->
  (forall r, nodes fs !! (dst ++ r) = None) ->
  ~ src `prefix_of` dst ->
  (forall k, k `prefix_of` dst -> k <> dst -> nodes fs !! k = Some DirN) ->
  (forall r, (src ++ r) ∉ faults fs) ->
  exists fs', copy_dir_recursively (copy_fuel fs) src dst fs = (Ok tt, fs') /\
    forall r, nodes fs' !! (dst ++ r) = nodes fs !! (src ++ r).
Proof.
  intros Hcl Hsrc Hfresh Hns Hanc Hnf.
  destruct (copy_dir_recursively_succeeds (copy_fuel fs) src dst fs Hcl Hsrc Hfresh Hns Hanc Hnf)
    as [fs' Hc].
  { intros r x Hx. by apply (copy_fuel_depth fs src r x). }
  exists fs'. split; [done|].
  exact (copy_dir_recursively_tree _ _ _ _ _ Hcl Hsrc Hfresh Hns Hc).
Qed.

Lemma copy_dir_recursively_complete_witness :
  exists fs', copy_dir_recursively (copy_fuel ex_fs) ex_src ex_dst ex_fs = (Ok tt, fs') /\
    forall r, nodes fs' !! (ex_dst ++ r) = nodes ex_fs !! (ex_src ++ r).
Proof.
  apply copy_dir_recursively_complete.
  - apply wf_subtree_closed, fs_wfb_sound. reflexivity.
  - reflexivity.
  - intros r. apply not_elem_of_list_to_map_1. rewrite list_elem_of_In. simpl.
    intros Hin. repeat destruct Hin as [Hin|Hin]; discriminate Hin || exact Hin.
  - intros [t Ht]. discriminate Ht.
  - unfold ex_dst. intros k [t Ht] Hk.
    destruct k as [|a k]; [reflexivity|]. injection Ht as Ha Ht. subst a.
    destruct k as [|b k]; [reflexivity|]. injection Ht as Hb Ht. subst b.
    destruct k as [|c k]; [by destruct Hk|discriminate Ht].
  - intros r. apply not_elem_of_empty.
Defined.

(* ------------------------------------------------------------------ *)
(** ** What the copier may change *)

(** Any run of the loop of the copier, successful or not. *)
Lemma for_each_copy_entry_any (recur : path -> path -> M FS unit) src dst :
  (forall s d fs o fs', recur s d fs = (o, fs') ->
     (forall m, o <> Panic m) /\ frame d (nodes fs) (nodes fs') /\ faults fs' = faults fs) ->
  forall es fs1 o fs',
  for_each es (copy_entry recur src dst) fs1 = (o, fs') ->
  (forall m, o <> Panic m) /\ frame dst (nodes fs1) (nodes fs') /\ faults fs' = faults fs1.
Proof.
  intros Hrec es. induction es as [|e es IHes]; intros fs1 o fs' Hl.
  { simpl in Hl. injection Hl as <- <-. split; [done|]. split; [apply frame_refl|done]. }
  simpl in Hl. unfold bind at 1 in Hl.
  assert (Hstep : forall o1 fs2, copy_entry recur src dst e fs1 = (o1, fs2) ->
            (forall m, o1 <> Panic m) /\ frame dst (nodes fs1) (nodes fs2) /\ faults fs2 = faults fs1).
  { intros o1 fs2. unfold copy_entry, bind, io. destruct e as [err|[n b]].
    - intros [= <- <-]. split; [done|]. split; [apply frame_refl|done].
    - cbv beta iota. unfold context. destruct b.
      + destruct (recur (src ++ [n]) (dst ++ [n]) fs1) as [o2 fs3] eqn:Hr.
        destruct (Hrec _ _ _ _ _ Hr) as (Hp & Hfr & Hf).
        intros H. assert (fs2 = fs3 /\ (forall m, o1 <> Panic m)) as [-> Hp1].
        { destruct o2 as [a|e2|m2]; [injection H as <- <-|injection H as <- <-|by destruct (Hp m2)];
            split; done. }
        split; [done|]. split; [by eapply frame_snoc|done].
      + unfold io_fs. destruct (copy_file (src ++ [n]) (dst ++ [n]) fs1) as [err|fs3] eqn:Hc;
          intros [= <- <-].
        * split; [done|]. split; [apply frame_refl|done].
        * destruct (copy_file_any _ _ _ _ Hc) as (c & c' & _ & Hn & Hf).
          split; [done|]. split; [|done]. intros q Hq _. rewrite Hn.
          rewrite lookup_insert_ne; [done|]. intros <-. apply Hq. by exists [n]. }
  destruct (copy_entry recur src dst e fs1) as [[[]|err|msg] fs2] eqn:He.
  - destruct (Hstep _ _ eq_refl) as (_ & Hfr1 & Hf1).
    destruct (IHes _ _ _ Hl) as (Hp & Hfr2 & Hf2).
    split; [done|]. split; [by eapply frame_trans|congruence].
  - injection Hl as <- <-. apply Hstep. reflexivity.
  - destruct (Hstep _ _ eq_refl) as [Hp _]. by destruct (Hp msg).
Qed.

Lemma copy_dir_recursively_any fuel : forall src dst fs o fs',
  copy_dir_recursively fuel src dst fs = (o, fs') ->
  (forall m, o <> Panic m) /\ frame dst (nodes fs) (nodes fs') /\ faults fs' = faults fs.
Proof.
  induction fuel as [|fuel IH]; intros src dst fs o fs' H.
  { simpl in H. unfold throw in H. injection H as <- <-. split; [done|].
    split; [apply frame_refl|done]. }
  simpl in H. unfold bind at 1, context at 1, io_fs in H.
  destruct (create_dir_all dst fs) as [e|fs1] eqn:Hc.
  { injection H as <- <-. split; [done|]. split; [apply frame_refl|done]. }
  unfold create_dir_all in Hc. apply create_dir_all_rev_creates_only in Hc as [Hc Hf].
  rewrite rev_involutive in Hc. apply creates_only_frame in Hc.
  unfold bind, context, io in H. destruct (read_dir src fs1) as [e|es].
  { injection H as <- <-. split; [done|]. split; [done|done]. }
  destruct (for_each_copy_entry_any _ src dst IH es fs1 o fs' H) as (Hp & Hfr & Hf').
  split; [done|]. split; [by eapply frame_trans|congruence].
Qed.

(** Whatever its outcome, success or failure, a run of
    [copy_dir_recursively src dst] changes no node outside the tree under
    [dst] other than missing ancestors of [dst]. *)
Theorem copy_dir_recursively_confined fuel src dst fs o fs' :
  copy_dir_recursively fuel src dst fs = (o, fs') ->
  forall q, ~ dst `prefix_of` q -> is_Some (nodes fs !! q) \/ ~ q `prefix_of` dst ->
    nodes fs' !! q = nodes fs !! q.
Proof.
  intros H. destruct (copy_dir_recursively_any _ _ _ _ _ _ H) as (_ & Hfr & _). exact Hfr.
Qed.

Lemma copy_dir_recursively_confined_witness :
  nodes (snd (copy_dir_recursively 4 ex_src ex_dst ex_fs)) !! (ex_src ++ ["save1.dat"]) =
  nodes ex_fs !! (ex_src ++ ["save1.dat"]).
Proof.
  apply (copy_dir_recursively_confined 4 ex_src ex_dst ex_fs
           (fst (copy_dir_recursively 4 ex_src ex_dst ex_fs))).
  - apply surjective_pairing.
  - intros [t Ht]. discriminate Ht.
  - right. intros [t Ht]. discriminate Ht.
Defined.

(* ------------------------------------------------------------------ *)
(** ** A source that is not there *)



(* ------------------------------------------------------------------ *)
(** ** A whole run of the program *)

(** A reading of the clock in chrono's range. *)
Lemma utc_now_eq w :
  clock_ok (clock w (ticks w)) = true ->
  utc_now w = (Ok (clock w (ticks w)),
               mkWorld (w_fs w) (username w) (clock w) (S (ticks w)) (stdout w)).
Proof.
  unfold clock_ok, utc_now. cbv zeta. intros [H1 H2]%andb_prop.
  apply Z.leb_le in H1. apply Z.leb_le in H2.
  destruct (Z.ltb_spec (secs (clock w (ticks w))) 0); [lia|].
  destruct (Z.ltb_spec MAX_YEAR (year_of (clock w (ticks w)))); [lia|]. reflexivity.
Qed.

(** A successful [scumm_profile], step by step. *)
Lemma scumm_profile_ok_eq pd sd w fs' :
  clock_ok (clock w (ticks w)) = true ->
  clock_ok (clock w (S (ticks w))) = true ->
  path_exists (w_fs w) pd = true ->
  copy_dir_recursively (copy_fuel (w_fs w)) pd (sd ++ [stamp_of (clock w (ticks w))]) (w_fs w)
    = (Ok tt, fs') ->
  scumm_profile pd sd w =
  (Ok {| source_path := pd; dest_path := sd ++ [stamp_of (clock w (ticks w))];
         time_scummed := clock w (S (ticks w)) |},
   mkWorld fs' (username w) (clock w) (S (S (ticks w))) (stdout w)).
Proof.
  intros Hk1 Hk2 Hex Hc. unfold scumm_profile, bind, gets. cbv beta iota. rewrite Hex.
  cbn [negb]. cbv beta iota. rewrite (utc_now_eq w Hk1). cbv beta iota.
  rewrite format_dest. unfold lift_fs. cbv beta iota. cbn [w_fs].
  rewrite Hc. cbv beta iota.
  match goal with |- context [utc_now ?w'] => rewrite (utc_now_eq w' Hk2) end.
  reflexivity.
Qed.

(** [ensure_scumm_dir] when the app-data directory is a directory and
    the backup root is not a regular file. *)
Lemma ensure_scumm_dir_dir w :
  nodes (w_fs w) !! app_data_path (username w) = Some DirN ->
  (forall c, nodes (w_fs w) !! (app_data_path (username w) ++ [SCUMM_DIR_NAME]) <> Some (FileN c)) ->
  ensure_scumm_dir w =
  (Ok (app_data_path (username w) ++ [SCUMM_DIR_NAME]),
   set_fs w (set_nodes (w_fs w)
     (<[app_data_path (username w) ++ [SCUMM_DIR_NAME] := DirN]> (nodes (w_fs w))))).
Proof.
  intros Happ Hs. rewrite ensure_scumm_dir_eq. cbv zeta.
  assert (Ha : path_exists (w_fs w) (app_data_path (username w)) = true)
    by (unfold path_exists; by rewrite Happ).
  rewrite Ha. unfold path_exists at 1.
  destruct (nodes (w_fs w) !! (app_data_path (username w) ++ [SCUMM_DIR_NAME])) as [[|c]|] eqn:Hn.
  - rewrite insert_id; [|done]. by destruct w as [[] ? ? ? ?].
  - by destruct (Hs c).
  - unfold mkdir. rewrite Hn, removelast_last, Happ. reflexivity.
Qed.

(** A single profile directory is [<app>/SaveFiles/<id>/profiles]. *)
Lemma find_profiles_dirs_single w pd :
  find_profiles_dirs w = (Ok [pd], w) ->
  exists n, pd = app_data_path (username w) ++ ["SaveFiles"; n; "profiles"].
Proof.
  unfold find_profiles_dirs, bind, context.
  destruct (find_user_id_dirs w) as [[ids| |] w1] eqn:Hu; try discriminate.
  apply find_user_id_dirs_ok in Hu as (es & _ & _ & -> & _ & ->).
  intros H. apply push_profiles_dirs_ok in H as [H _].
  destruct (entry_names es) as [|n [|m l]]; simpl in H; try discriminate.
  injection H as ->. exists n. reflexivity.
Qed.

(** A whole successful run: on a well-formed file system where the
    resolution finds exactly one profile directory, whose tree can be
    read, while [<app>/scummed] is not a regular file and the backup
    named after the current instant does not exist yet, and both
    readings of the clock are in chrono's range, [main] prints one
    success line naming the profile directory and the backup, reads the
    clock twice, and leaves under the backup a copy of the profile tree.
    Both paths are such that [path_debug] is their [Debug] form. *)
Theorem main_scumms_single_profile w pd :
  clock_ok (clock w (ticks w)) = true ->
  clock_ok (clock w (S (ticks w))) = true ->
  debug_plain pd = true ->
  debug_plain (app_data_path (username w) ++ [SCUMM_DIR_NAME; stamp_of (clock w (ticks w))]) = true ->
  fs_wf (w_fs w) ->
  find_profiles_dirs w = (Ok [pd], w) ->
  nodes (w_fs w) !! pd = Some DirN ->
  (forall r, (pd ++ r) ∉ faults (w_fs w)) ->
  (forall c, nodes (w_fs w) !! (app_data_path (username w) ++ [SCUMM_DIR_NAME]) <> Some (FileN c)) ->
  (forall r, nodes (w_fs w) !!
     (app_data_path (username w) ++ [SCUMM_DIR_NAME; stamp_of (clock w (ticks w))] ++ r) = None) ->
  exists fs',
    main w = (Ok tt, mkWorld fs' (username w) (clock w) (S (S (ticks w)))
                       (stdout w ++ [("successfully scummed current profile from " ++ path_debug pd
                          ++ " to " ++ path_debug (app_data_path (username w)
                               ++ [SCUMM_DIR_NAME; stamp_of (clock w (ticks w))]))%string])) /\
    (forall r, nodes fs' !! (app_data_path (username w)
                 ++ [SCUMM_DIR_NAME; stamp_of (clock w (ticks w))] ++ r)
               = nodes (w_fs w) !! (pd ++ r)).
Proof.
  intros Hk1 Hk2 _ _ Hwf Hf Hpd Hnf Hsf Hfresh.
  destruct (find_profiles_dirs_single w pd Hf) as [n Hpdn].
  set (app := app_data_path (username w)) in *.
  set (st := stamp_of (clock w (ticks w))) in *.
  set (fs := w_fs w) in *.
  assert (Happ : nodes fs !! app = Some DirN).
  { apply (wf_prefix_dir fs pd); [done|done|]. rewrite Hpdn. by eexists. }
  set (fs1 := set_nodes fs (<[app ++ [SCUMM_DIR_NAME] := DirN]> (nodes fs))).
  assert (Hens : ensure_scumm_dir w = (Ok (app ++ [SCUMM_DIR_NAME]), set_fs w fs1))
    by (apply ensure_scumm_dir_dir; done).
  assert (Hagree : forall r, nodes fs1 !! (pd ++ r) = nodes fs !! (pd ++ r)).
  { intros r. unfold fs1, set_nodes; cbn [nodes]. rewrite lookup_insert_ne; [done|]. rewrite Hpdn, <- app_assoc.
    intros H. apply app_inv_head in H. injection H as _ H. discriminate H. }
  assert (Hcl1 : subtree_closed fs1 pd)
    by (eapply closed_agree; [exact Hagree|by apply wf_subtree_closed]).
  assert (Hpd1 : nodes fs1 !! pd = Some DirN) by (by rewrite <- (app_nil_r pd), Hagree, app_nil_r).
  set (dest := (app ++ [SCUMM_DIR_NAME]) ++ [st]).
  assert (Hdest : dest = app ++ [SCUMM_DIR_NAME; st]) by (unfold dest; by rewrite <- app_assoc).
  assert (Hfresh1 : forall r, nodes fs1 !! (dest ++ r) = None).
  { intros r. unfold fs1, set_nodes; cbn [nodes]. rewrite lookup_insert_ne; [rewrite Hdest, <- app_assoc; apply Hfresh|].
    intros H. apply (f_equal List.length) in H. unfold dest in H.
    rewrite !length_app in H. simpl in H. lia. }
  assert (Hns1 : ~ pd `prefix_of` dest).
  { intros [t Ht]. rewrite Hpdn, Hdest, <- !app_assoc in Ht. apply app_inv_head in Ht.
    injection Ht as Ht _. discriminate Ht. }
  destruct (copy_dir_recursively_succeeds (copy_fuel fs1) pd dest fs1) as [fs2 Hc].
  { done. }
  { done. }
  { done. }
  { done. }
  { intros k Hk Hkd. apply prefix_snoc_inv in Hk as [Hk| ->]; [|done].
    apply prefix_snoc_inv in Hk as [Hk| ->].
    - unfold fs1, set_nodes; cbn [nodes]. rewrite lookup_insert_ne; [by apply (wf_prefix_dir fs app)|].
      intros Heq. apply prefix_length in Hk. rewrite <- Heq, length_app in Hk. simpl in Hk. lia.
    - unfold fs1, set_nodes; cbn [nodes]. by rewrite lookup_insert_eq. }
  { done. }
  { intros r x Hx. by apply (copy_fuel_depth fs1 pd r x). }
  assert (Htree := copy_dir_recursively_tree (copy_fuel fs1) pd dest fs1 fs2 Hcl1 Hpd1).
  assert (Hsc : scumm_profile pd (app ++ [SCUMM_DIR_NAME]) (set_fs w fs1) =
     (Ok {| source_path := pd; dest_path := dest; time_scummed := clock w (S (ticks w)) |},
      mkWorld fs2 (username w) (clock w) (S (S (ticks w))) (stdout w))).
  { assert (Hex : path_exists (w_fs (set_fs w fs1)) pd = true)
      by (unfold path_exists; cbn [set_fs w_fs]; by rewrite Hpd1).
    exact (scumm_profile_ok_eq pd (app ++ [SCUMM_DIR_NAME]) (set_fs w fs1) fs2 Hk1 Hk2 Hex Hc). }
  exists fs2. split.
  - unfold main, bind at 1, attempt at 1. rewrite Hf. cbn [List.length Nat.eqb Nat.ltb Nat.leb].
    unfold bind at 1, attempt at 1. rewrite Hens.
    unfold bind at 1, attempt at 1. rewrite Hsc. unfold println. cbn [dest_path source_path].
    rewrite Hdest. reflexivity.
  - intros r. rewrite <- Hagree, <- (Htree Hfresh1 Hns1 Hc r). f_equal.
Qed.

Lemma main_scumms_single_profile_witness :
  exists fs',
    main ex_w_one = (Ok tt, mkWorld fs' (username ex_w_one) (clock ex_w_one) (S (S (ticks ex_w_one)))
                       (stdout ex_w_one ++ [("successfully scummed current profile from "
                          ++ path_debug (ex_save ++ [ex_steam_id; "profiles"])
                          ++ " to " ++ path_debug (app_data_path (username ex_w_one)
                               ++ [SCUMM_DIR_NAME; stamp_of (clock ex_w_one (ticks ex_w_one))]))%string])) /\
    (forall r, nodes fs' !! (app_data_path (username ex_w_one)
                 ++ [SCUMM_DIR_NAME; stamp_of (clock ex_w_one (ticks ex_w_one))] ++ r)
               = nodes (w_fs ex_w_one) !! ((ex_save ++ [ex_steam_id; "profiles"]) ++ r)).
Proof.
  apply main_scumms_single_profile.
  - reflexivity.
  - reflexivity.
  - reflexivity.
  - reflexivity.
  - apply fs_wfb_sound. reflexivity.
  - reflexivity.
  - reflexivity.
  - intros r. apply not_elem_of_empty.
  - intros c. assert (E : nodes (w_fs ex_w_one) !! (app_data_path (username ex_w_one)
                             ++ [SCUMM_DIR_NAME]) = None) by reflexivity.
    rewrite E. discriminate.
  - intros r. apply not_elem_of_list_to_map_1. rewrite list_elem_of_In. simpl.
    intros Hin. repeat destruct Hin as [Hin|Hin]; discriminate Hin || exact Hin.
Defined.

(* ------------------------------------------------------------------ *)
(** ** What main prints when the resolution fails *)

Lemma display_with_context e c : display (with_context e c) = c.
Proof. unfold display, with_context. simpl. by rewrite rev_unit. Qed.

(** [main] when the resolution fails: one line, nothing else changes. *)
Lemma main_resolution_error w e w1 :
  find_profiles_dirs w = (Err e, w1) ->
  main w = (Ok tt, mkWorld (w_fs w) (username w) (clock w) (ticks w)
                     (stdout w ++ [("Failed to find profile dirs: " ++ display e)%string])).
Proof.
  intros H. pose proof (find_profiles_dirs_pure _ _ _ H) as ->.
  unfold main, bind at 1, attempt. rewrite H. reflexivity.
Qed.

(** Whenever the enumeration of the identity directories fails (no
    app-data directory, no save root, an unreadable save root or entry),
    [main] prints the same line, which names none of these causes: the
    printed error shows only its outermost context.  Nothing else
    changes. *)
Theorem main_user_id_dirs_error w e w1 :
  find_user_id_dirs w = (Err e, w1) ->
  main w = (Ok tt, mkWorld (w_fs w) (username w) (clock w) (ticks w)
    (stdout w ++ ["Failed to find profile dirs: Failed to find user id dirs while looking for profile dirs"])).
Proof.
  intros H.
  rewrite (main_resolution_error w
             (with_context e "Failed to find user id dirs while looking for profile dirs") w).
  - by rewrite display_with_context.
  - pose proof (find_user_id_dirs_pure _ _ _ H) as ->.
    unfold find_profiles_dirs, bind, context. by rewrite H.
Qed.

Lemma main_user_id_dirs_error_witness :
  main ex_w_noapp = (Ok tt, mkWorld (w_fs ex_w_noapp) (username ex_w_noapp) (clock ex_w_noapp)
    (ticks ex_w_noapp)
    (stdout ex_w_noapp ++ ["Failed to find profile dirs: Failed to find user id dirs while looking for profile dirs"])).
Proof.
  apply (main_user_id_dirs_error ex_w_noapp
           (with_context (with_context (anyhow_new (IoError NotFound "Darkest Dungeon 2 app dir not found"))
              "Failed to find save dir") "Failed to find user id dirs") ex_w_noapp).
  reflexivity.
Defined.

(** When the first identity directory lacking [profiles] has a valid
    UTF-8 path [s], [main] prints
    ["Failed to find profile dirs: Profiles dir not found at <s>"] and
    changes nothing else. *)
Theorem main_missing_profiles_dir w ids pre id post s :
  find_user_id_dirs w = (Ok ids, w) ->
  ids = pre ++ id :: post ->
  (forall q, q ∈ pre -> path_exists (w_fs w) (q ++ ["profiles"]) = true) ->
  path_exists (w_fs w) (id ++ ["profiles"]) = false ->
  to_str (id ++ ["profiles"]) = Some s ->
  main w = (Ok tt, mkWorld (w_fs w) (username w) (clock w) (ticks w)
    (stdout w ++ [("Failed to find profile dirs: Profiles dir not found at " ++ s)%string])).
Proof.
  intros Hf -> Hpre Hid Hs.
  rewrite (main_resolution_error w
             (anyhow_new (IoError NotFound ("Profiles dir not found at " ++ s))) w);
    [reflexivity|].
  unfold find_profiles_dirs, bind, context. rewrite Hf.
  rewrite (push_profiles_dirs_first_missing pre id post [] w Hpre Hid), Hs. reflexivity.
Qed.

Lemma main_missing_profiles_dir_witness :
  main ex_w_missing = (Ok tt, mkWorld (w_fs ex_w_missing) (username ex_w_missing)
    (clock ex_w_missing) (ticks ex_w_missing)
    (stdout ex_w_missing ++ [("Failed to find profile dirs: Profiles dir not found at "
                              ++ join_path (ex_save ++ ["0"; "profiles"]))%string])).
Proof.
  apply (main_missing_profiles_dir ex_w_missing [ex_save ++ ["0"]] [] (ex_save ++ ["0"]) []).
  - reflexivity.
  - reflexivity.
  - intros q Hq. by apply not_elem_of_nil in Hq.
  - reflexivity.
  - reflexivity.
Defined.

(** When the save root exists as a directory but is empty, the
    resolution succeeds with no profile directory and [main] panics with
    the message of its assertion, before printing anything. *)
Theorem main_empty_save_root_panics w :
  path_exists (w_fs w) (app_data_path (username w)) = true ->
  nodes (w_fs w) !! save_root w = Some DirN ->
  (forall n, nodes (w_fs w) !! (save_root w ++ [n]) = None) ->
  main w = (Panic "if finding find_profiles_dirs didn't return err should have at least 1 dir", w).
Proof.
  intros Ha Hs Hn.
  assert (Hs' : path_exists (w_fs w) (save_root w) = true) by (unfold path_exists; by rewrite Hs).
  assert (Hr : read_dir (save_root w) (w_fs w) = inr []).
  { destruct (read_dir (save_root w) (w_fs w)) as [e|[|x es]] eqn:Hr.
    - unfold read_dir in Hr. by rewrite Hs in Hr.
    - done.
    - exfalso. destruct x as [e|[m b]].
      + destruct (read_dir_inl _ _ _ e Hr) as (m & y & Hy); [by left|]. by rewrite Hn in Hy.
      + destruct (read_dir_inr _ _ _ m b Hr) as (y & Hy & _); [by left|]. by rewrite Hn in Hy. }
  assert (Hf : find_profiles_dirs w = (Ok [], w)).
  { unfold find_profiles_dirs, bind at 1, context.
    rewrite (find_user_id_dirs_eq w Ha Hs'), Hr. reflexivity. }
  unfold main, bind at 1, attempt at 1. rewrite Hf. reflexivity.
Qed.

Lemma main_empty_save_root_panics_witness :
  main ex_w_empty =
    (Panic "if finding find_profiles_dirs didn't return err should have at least 1 dir", ex_w_empty).
Proof.
  apply main_empty_save_root_panics.
  - reflexivity.
  - reflexivity.
  - intros n. apply not_elem_of_list_to_map_1. rewrite list_elem_of_In. simpl.
    intros Hin. repeat destruct Hin as [Hin|Hin]; discriminate Hin || exact Hin.
Defined.

(* ------------------------------------------------------------------ *)
(** ** A regular file in place of the backup root *)

(** [create_dir_all] below a regular file fails with NotADirectory. *)
Lemma create_dir_all_under_file d x fs c :
  fs_wf fs -> nodes fs !! d = Some (FileN c) ->
  create_dir_all (d ++ [x]) fs = inl (IoError NotADirectory "Not a directory").
Proof.
  intros Hwf Hd. unfold create_dir_all. rewrite rev_unit. cbn [create_dir_all_rev].
  change (rev (x :: rev d)) with (rev (rev d) ++ [x]). rewrite rev_involutive.
  assert (Hx : nodes fs !! (d ++ [x]) = None).
  { destruct (nodes fs !! (d ++ [x])) as [y|] eqn:Hy; [|done].
    apply Hwf in Hy. congruence. }
  unfold mkdir. rewrite Hx, removelast_last, Hd. unfold path_is_dir. rewrite Hx. reflexivity.
Qed.

Lemma push_profiles_dirs_exist ids acc w l w' :
  push_profiles_dirs ids acc w = (Ok l, w') ->
  forall p, p ∈ l -> p ∈ acc \/ path_exists (w_fs w) p = true.
Proof.
  revert acc. induction ids as [|id ids IH]; intros acc H p Hp; simpl in H.
  - injection H as <- _. by left.
  - unfold bind, gets in H. simpl in H.
    destruct (path_exists (w_fs w) (id ++ ["profiles"])) eqn:He.
    + destruct (IH _ H p Hp) as [Hin|Hin]; [|by right].
      apply elem_of_app in Hin as [Hin|Hin]; [by left|].
      apply list_elem_of_singleton in Hin as ->. by right.
    + destruct (to_str (id ++ ["profiles"])); done.
Qed.

(** Every profile directory the resolution returns exists. *)
Lemma find_profiles_dirs_exist w l w' :
  find_profiles_dirs w = (Ok l, w') -> forall p, p ∈ l -> path_exists (w_fs w) p = true.
Proof.
  unfold find_profiles_dirs, bind, context.
  destruct (find_user_id_dirs w) as [[ids| |] w1] eqn:Hu; try discriminate.
  pose proof (find_user_id_dirs_pure _ _ _ Hu) as ->.
  intros H p Hp. destruct (push_profiles_dirs_exist _ _ _ _ _ H p Hp) as [Hin|Hin]; [|done].
  by apply not_elem_of_nil in Hin.
Qed.

Lemma scumm_profile_copy_err pd sd w e fs' :
  clock_ok (clock w (ticks w)) = true ->
  path_exists (w_fs w) pd = true ->
  copy_dir_recursively (copy_fuel (w_fs w)) pd (sd ++ [stamp_of (clock w (ticks w))]) (w_fs w)
    = (Err e, fs') ->
  scumm_profile pd sd w = (Err e, mkWorld fs' (username w) (clock w) (S (ticks w)) (stdout w)).
Proof.
  intros Hk Hex Hc. unfold scumm_profile, bind, gets. cbv beta iota. rewrite Hex.
  cbn [negb]. cbv beta iota. rewrite (utc_now_eq w Hk). cbv beta iota.
  rewrite format_dest. unfold lift_fs. cbv beta iota. cbn [w_fs].
  rewrite Hc. reflexivity.
Qed.

(** [ensure_scumm_dir] checks that [<app>/scummed] exists, not that it
    is a directory.  When it is a regular file, [main] goes on to the
    backup, which fails to create the destination below it:
    [main] prints ["failed to scumm profile: failed to create dst dir:
    <dest>"], having read the clock once and changed nothing else.  The
    reading is in chrono's range, and [path_debug] is the [Debug] form of
    the destination. *)
Theorem main_scumm_dir_is_file w pd c :
  clock_ok (clock w (ticks w)) = true ->
  debug_plain (app_data_path (username w) ++ [SCUMM_DIR_NAME; stamp_of (clock w (ticks w))]) = true ->
  fs_wf (w_fs w) ->
  find_profiles_dirs w = (Ok [pd], w) ->
  nodes (w_fs w) !! (app_data_path (username w) ++ [SCUMM_DIR_NAME]) = Some (FileN c) ->
  main w = (Ok tt, mkWorld (w_fs w) (username w) (clock w) (S (ticks w))
    (stdout w ++ [("failed to scumm profile: failed to create dst dir: "
       ++ path_debug (app_data_path (username w)
                        ++ [SCUMM_DIR_NAME; stamp_of (clock w (ticks w))]))%string])).
Proof.
  intros Hk _ Hwf Hf Hs.
  set (app := app_data_path (username w)) in *.
  set (st := stamp_of (clock w (ticks w))) in *.
  assert (Hpd : path_exists (w_fs w) pd = true) by (eapply find_profiles_dirs_exist; [exact Hf|by left]).
  assert (Hens : ensure_scumm_dir w = (Ok (app ++ [SCUMM_DIR_NAME]), w)).
  { rewrite ensure_scumm_dir_eq. cbv zeta. fold app. unfold path_exists at 1 2.
    rewrite (Hwf _ _ _ Hs), Hs. reflexivity. }
  assert (Hc : copy_dir_recursively (copy_fuel (w_fs w)) pd ((app ++ [SCUMM_DIR_NAME]) ++ [st]) (w_fs w)
     = (Err (with_context (anyhow_new (IoError NotADirectory "Not a directory"))
               ("failed to create dst dir: " ++ path_debug ((app ++ [SCUMM_DIR_NAME]) ++ [st]))),
        w_fs w)).
  { unfold copy_fuel. cbn [copy_dir_recursively]. unfold bind at 1, context at 1, io_fs.
    rewrite (create_dir_all_under_file _ st _ c Hwf Hs). reflexivity. }
  assert (Hsc := scumm_profile_copy_err pd (app ++ [SCUMM_DIR_NAME]) w _ _ Hk Hpd Hc).
  unfold main, bind at 1, attempt at 1. rewrite Hf. cbn [List.length Nat.eqb Nat.ltb Nat.leb].
  unfold bind at 1, attempt at 1. rewrite Hens.
  unfold bind at 1, attempt at 1. rewrite Hsc. unfold println. cbn [w_fs username clock ticks stdout].
  rewrite display_with_context, <- app_assoc. reflexivity.
Qed.

Lemma main_scumm_dir_is_file_witness :
  main ex_w_file = (Ok tt, mkWorld (w_fs ex_w_file) (username ex_w_file) (clock ex_w_file)
    (S (ticks ex_w_file))
    (stdout ex_w_file ++ [("failed to scumm profile: failed to create dst dir: "
       ++ path_debug (app_data_path (username ex_w_file)
                        ++ [SCUMM_DIR_NAME; stamp_of (clock ex_w_file (ticks ex_w_file))]))%string])).
Proof.
  apply (main_scumm_dir_is_file ex_w_file (ex_save ++ [ex_steam_id; "profiles"]) []).
  - reflexivity.
  - reflexivity.
  - apply fs_wfb_sound. reflexivity.
  - reflexivity.
  - reflexivity.
Defined.

(* ------------------------------------------------------------------ *)
(** ** The outcomes of main *)







